(** * lazypp: lazy pull sequences and their combinators

    A shallow embedding of [include/lazypp.hpp].  Every C++ iterator class
    becomes a record of its private members together with a [next] function
    in explicit state-passing style: [next] receives the object and returns
    the [std::optional] result together with the object as the call left it.

    Two loops of the header have no static bound ([filter_iterator::next]
    and [iterator_wrapper::each]), so every [next] carries a fuel argument
    and answers [None] when the fuel does not suffice.  The result of a call
    that returns is [Some (r, self')], where [r : option value_type] is the
    [std::optional] the C++ call returns. *)

From Stdlib Require Import List Arith ZArith Lia Bool.
Import ListNotations.

Set Implicit Arguments.

(** ** Function objects

    [MapFunc], [FilterFunc], [TestFunc], [GenFunc], [FuncLast], [FuncNext]
    and the argument of [each] are template parameters: any copyable object
    with an [operator()].  The object is stored by value in the iterator and
    called through a non-const member, so a call may change the object's own
    state; [call] returns the result and the object after the call. *)

Class Callable (F A B : Type) := call : F -> A -> B * F.

(** A stateless lambda or plain function. *)
#[export] Instance function_Callable (A B : Type) : Callable (A -> B) A B :=
  fun f a => (f a, f).

(** ** The iterator contract

    "each iterator should define: value_type" and a member [next()] that
    returns [std::optional<value_type>]. *)

Module Import concept.
Class Iterator (I value_type : Type) :=
next : nat -> I -> option (option value_type * I).
End concept.

(** ** map_iterator *)

Module map_iterator.
Section Def.
Context {BaseIterator MapFunc base_value_type value_type : Type}.
Context `{Iterator BaseIterator base_value_type}.
Context `{Callable MapFunc base_value_type value_type}.

Record t := mk { map_func_ : MapFunc; base_ : BaseIterator }.

Definition next (fuel : nat) (self : t) : option (option value_type * t) :=
  match next fuel (base_ self) with
  | None => None
  | Some (Some v, b) =>
      let (r, f) := call (map_func_ self) v in
      Some (Some r, mk f b)
  | Some (None, b) => Some (None, mk (map_func_ self) b)
  end.
End Def.
Arguments t : clear implicits.
End map_iterator.

#[export] Instance map_iterator_Iterator
  {BaseIterator MapFunc base_value_type value_type : Type}
  `{Iterator BaseIterator base_value_type}
  `{Callable MapFunc base_value_type value_type} :
  Iterator (map_iterator.t BaseIterator MapFunc) value_type :=
  map_iterator.next.

(** ** filter_iterator

    The [for] loop pulls from the base until a value passes; one unit of
    fuel is spent per turn of the loop. *)

Module filter_iterator.
Section Def.
Context {BaseIterator FilterFunc value_type : Type}.
Context `{Iterator BaseIterator value_type}.
Context `{Callable FilterFunc value_type bool}.

Record t := mk { filter_func_ : FilterFunc; base_ : BaseIterator }.

Fixpoint next (fuel : nat) (self : t) : option (option value_type * t) :=
  match fuel with
  | O => None
  | S fuel' =>
      match concept.next fuel' (base_ self) with
      | None => None
      | Some (Some v, b) =>
          match call (filter_func_ self) v with
          | (true, f) => Some (Some v, mk f b)
          | (false, f) => next fuel' (mk f b)
          end
      | Some (None, b) => Some (None, mk (filter_func_ self) b)
      end
  end.
End Def.
Arguments t : clear implicits.
End filter_iterator.

#[export] Instance filter_iterator_Iterator
  {BaseIterator FilterFunc value_type : Type}
  `{Iterator BaseIterator value_type}
  `{Callable FilterFunc value_type bool} :
  Iterator (filter_iterator.t BaseIterator FilterFunc) value_type :=
  filter_iterator.next.

(** ** take_iterator

    [num_] is a [size_t]; it is only decremented when it is not zero, so it
    never wraps and is kept as a natural number. *)

Module take_iterator.
Section Def.
Context {BaseIterator value_type : Type}.
Context `{Iterator BaseIterator value_type}.

Record t := mk { num_ : nat; base_ : BaseIterator }.

Definition next (fuel : nat) (self : t) : option (option value_type * t) :=
  match num_ self with
  | S n =>
      match next fuel (base_ self) with
      | None => None
      | Some (r, b) => Some (r, mk n b)
      end
  | O => Some (None, self)
  end.
End Def.
Arguments t : clear implicits.
End take_iterator.

#[export] Instance take_iterator_Iterator
  {BaseIterator value_type : Type} `{Iterator BaseIterator value_type} :
  Iterator (take_iterator.t BaseIterator) value_type :=
  take_iterator.next.

(** ** generate_iterator *)

Module generate_iterator.
Section Def.
Context {GenFunc value_type : Type}.
Context `{Callable GenFunc unit value_type}.

Record t := mk { gen_func_ : GenFunc }.

Definition next (fuel : nat) (self : t) : option (option value_type * t) :=
  let (r, g) := call (gen_func_ self) tt in
  Some (Some r, mk g).
End Def.
Arguments t : clear implicits.
End generate_iterator.

#[export] Instance generate_iterator_Iterator
  {GenFunc value_type : Type} `{Callable GenFunc unit value_type} :
  Iterator (generate_iterator.t GenFunc) value_type :=
  generate_iterator.next.

(** ** take_while_iterator *)

Module take_while_iterator.
Section Def.
Context {BaseIterator TestFunc value_type : Type}.
Context `{Iterator BaseIterator value_type}.
Context `{Callable TestFunc value_type bool}.

Record t := mk { test_func_ : TestFunc; base_ : BaseIterator; ended_ : bool }.

Definition next (fuel : nat) (self : t) : option (option value_type * t) :=
  if ended_ self then Some (None, self)
  else
    match next fuel (base_ self) with
    | None => None
    | Some (Some v, b) =>
        match call (test_func_ self) v with
        | (true, f) => Some (Some v, mk f b (ended_ self))
        | (false, f) => Some (None, mk f b true)
        end
    | Some (None, b) => Some (None, mk (test_func_ self) b true)
    end.
End Def.
Arguments t : clear implicits.
End take_while_iterator.

#[export] Instance take_while_iterator_Iterator
  {BaseIterator TestFunc value_type : Type}
  `{Iterator BaseIterator value_type}
  `{Callable TestFunc value_type bool} :
  Iterator (take_while_iterator.t BaseIterator TestFunc) value_type :=
  take_while_iterator.next.

(** ** range_iterator

    [func_next_] receives [actual_] by reference ("returns actual value and
    increment to the next value"): a call yields the value to return and the
    position it leaves in [actual_]. *)

Module range_iterator.
Section Def.
Context {T FuncLast FuncNext : Type}.
Context `{Callable FuncLast T bool}.
Context `{Callable FuncNext T (T * T)}.

Record t := mk { actual_ : T; is_last_ : FuncLast; func_next_ : FuncNext }.

Definition next (fuel : nat) (self : t) : option (option T * t) :=
  match call (is_last_ self) (actual_ self) with
  | (true, l) => Some (None, mk (actual_ self) l (func_next_ self))
  | (false, l) =>
      let '((v, a), n) := call (func_next_ self) (actual_ self) in
      Some (Some v, mk a l n)
  end.
End Def.
Arguments t : clear implicits.
End range_iterator.

#[export] Instance range_iterator_Iterator
  {T FuncLast FuncNext : Type}
  `{Callable FuncLast T bool} `{Callable FuncNext T (T * T)} :
  Iterator (range_iterator.t T FuncLast FuncNext) T :=
  range_iterator.next.

(** ** iterator_wrapper

    A method is a function of the receiver that returns its result next to
    the receiver as the call leaves it.  The chain methods hand [iterator_]
    by value to the decorator's constructor, which copy-constructs its
    [base_] member from it; they assign nothing in the receiver. *)

(** A class type that declares a nested [value_type]. *)
Class nested_value_type (F : Type) := value_type_of : Type.

Module iterator_wrapper.
Record t (Iterator_ : Type) := mk { iterator_ : Iterator_ }.

Section Def.
Context {Iterator_ : Type}.

Definition map {Func : Type} (self : t Iterator_) (f : Func) :=
  (mk (map_iterator.mk f (iterator_ self)), self).

Definition filter {Func : Type} (self : t Iterator_) (f : Func) :=
  (mk (filter_iterator.mk f (iterator_ self)), self).

Definition take (self : t Iterator_) (num_elems : nat) :=
  (mk (take_iterator.mk num_elems (iterator_ self)), self).

(** The wrapper's constructor copies the decorator it is given.  For a
    [take_while_iterator] that copy meets the constructor declared with
    [take_while_iterator<TestFunc, BaseIterator>], the two template
    arguments swapped, which instantiates the class with the predicate type
    in the place of the base iterator and so asks the predicate type for a
    nested [value_type].  The call is well-formed only for such a predicate
    type (a lambda or a function pointer has none); the copy is then made by
    the implicit copy constructor. *)
Definition take_while {Func : Type} `{nested_value_type Func}
    (self : t Iterator_) (f : Func) :=
  (mk (take_while_iterator.mk f (iterator_ self) false), self).

(** [while ((v = iterator_.next())) f( *v );] returns nothing; the model
    returns the receiver and the function object as the loop leaves them,
    one unit of fuel per turn of the loop. *)
Fixpoint each {value_type Func R : Type}
    `{Iterator Iterator_ value_type} `{Callable Func value_type R}
    (fuel : nat) (self : t Iterator_) (f : Func) : option (t Iterator_ * Func) :=
  match fuel with
  | O => None
  | S fuel' =>
      match next fuel' (iterator_ self) with
      | None => None
      | Some (Some v, i) =>
          let (_, f') := call f v in
          each fuel' (mk i) f'
      | Some (None, i) => Some (mk i, f)
      end
  end.
End Def.
End iterator_wrapper.

(** ** Entry points *)

Definition from_generator {Func : Type} (f : Func) :=
  iterator_wrapper.mk (generate_iterator.mk f).

(** [range(T& begin, LastFunc last_func, NextFunc next_func)] *)
Definition range_from {T LastFunc NextFunc : Type}
    (begin_ : T) (last_func : LastFunc) (next_func : NextFunc) :=
  iterator_wrapper.mk (range_iterator.mk begin_ last_func next_func).

(** What the two convenience overloads ask of [T]: [v == end] and [v++]
    (the old value, and [v] after the increment). *)
Class EqualityComparable (T : Type) := eq_op : T -> T -> bool.
Class Incrementable (T : Type) := post_increment : T -> T * T.

(** [range(T begin, T end)] *)
Definition range {T : Type} `{EqualityComparable T} `{Incrementable T}
    (begin_ end_ : T) :=
  range_from begin_ (fun v : T => eq_op v end_) (fun v : T => post_increment v).

(** [range(T begin, T end, NextFunc next_func)] *)
Definition range_step {T NextFunc : Type} `{EqualityComparable T}
    (begin_ end_ : T) (next_func : NextFunc) :=
  range_from begin_ (fun v : T => eq_op v end_) next_func.

(** [int]: 32 bits, two's complement; [++] wraps around. *)
Definition int := Z.
Definition int_wrap (z : Z) : int := ((z + 2 ^ 31) mod 2 ^ 32 - 2 ^ 31)%Z.
#[export] Instance int_EqualityComparable : EqualityComparable int := Z.eqb.
#[export] Instance int_Incrementable : Incrementable int :=
  fun v => (v, int_wrap (v + 1)).

(** ** Clients of the library used in the statements *)

(** A step function for [range(begin, end, step)] that returns the position
    and advances it by two: [[](int& v) { int r = v; v += 2; return r; }]. *)
Definition by_two : int -> int * int := fun v => (v, int_wrap (v + 2)).

(** A generating function object that returns 0, 1, 2, ...:
    [[n = 0]() mutable { return n++; }]. *)
Module counter.
Record t := mk { value : nat }.
Definition call (self : t) (_ : unit) : nat * t :=
  (value self, mk (S (value self))).
End counter.

#[export] Instance counter_Callable : Callable counter.t unit nat := counter.call.

(** A function object that counts how often it is called. *)
Module spy.
Section Def.
Context {F A B : Type} `{Callable F A B}.
Record t := mk { calls : nat; target : F }.
Definition call (self : t) (a : A) : B * t :=
  let (r, f) := call (target self) a in (r, mk (S (calls self)) f).
End Def.
Arguments t : clear implicits.
End spy.

#[export] Instance spy_Callable {F A B : Type} `{Callable F A B} :
  Callable (spy.t F) A B := spy.call.

(** A function object that appends every argument to a log, as a lambda
    that does [push_back] on a vector. *)
Module recorder.
Section Def.
Context {A : Type}.
Record t := mk { seen : list A }.
Definition call (self : t) (a : A) : unit * t := (tt, mk (seen self ++ [a])).
End Def.
Arguments t : clear implicits.
End recorder.

#[export] Instance recorder_Callable {A : Type} : Callable (recorder.t A) A unit :=
  recorder.call.

(** A base iterator that counts how often its [next()] is entered. *)
Module probe.
Section Def.
Context {BaseIterator value_type : Type} `{Iterator BaseIterator value_type}.
Record t := mk { entered : nat; base_ : BaseIterator }.
Definition next (fuel : nat) (self : t) : option (option value_type * t) :=
  match next fuel (base_ self) with
  | None => None
  | Some (r, b) => Some (r, mk (S (entered self)) b)
  end.
End Def.
Arguments t : clear implicits.
End probe.

#[export] Instance probe_Iterator {BaseIterator value_type : Type}
  `{Iterator BaseIterator value_type} :
  Iterator (probe.t BaseIterator) value_type := probe.next.

(** A client-defined iterator that replays a fixed script of answers, one
    per call, and answers empty once the script is used up. *)
Module replay.
Section Def.
Context {value_type : Type}.
Record t := mk { script : list (option value_type) }.
Definition next (fuel : nat) (self : t) : option (option value_type * t) :=
  match script self with
  | [] => Some (None, self)
  | r :: rest => Some (r, mk rest)
  end.
End Def.
Arguments t : clear implicits.
End replay.

#[export] Instance replay_Iterator {value_type : Type} :
  Iterator (replay.t value_type) value_type := replay.next.

(** The finite sequence [S] as an iterator. *)
Definition of_list {value_type : Type} (S : list value_type) : replay.t value_type :=
  replay.mk (List.map Some S).

(** ** Observing an iterator *)

Section Observe.
Context {I value_type : Type} `{Iterator I value_type}.

(** The answers of [k] successive calls of [next()], and the iterator
    after them. *)
Fixpoint pulls (fuel k : nat) (it : I) : option (list (option value_type) * I) :=
  match k with
  | O => Some ([], it)
  | S k' =>
      match next fuel it with
      | None => None
      | Some (r, it') =>
          match pulls fuel k' it' with
          | None => None
          | Some (rs, it'') => Some (r :: rs, it'')
          end
      end
  end.

(** With enough fuel, [next()] on [it] returns [r] and leaves [it']. *)
Definition answers (it : I) (r : option value_type) (it' : I) : Prop :=
  exists fuel0, forall fuel, fuel0 <= fuel -> next fuel it = Some (r, it').

(** [it] produces the elements of [S], in order, and then reports empty:
    it is the finite sequence [S]. *)
Fixpoint yields (it : I) (S : list value_type) : Prop :=
  match S with
  | [] => exists it', answers it None it'
  | v :: S' => exists it', answers it (Some v) it' /\ yields it' S'
  end.

(** [it] produces the elements of [S], in order, and is then [it']. *)
Fixpoint delivers (it : I) (S : list value_type) (it' : I) : Prop :=
  match S with
  | [] => it' = it
  | v :: S' => exists it1, answers it (Some v) it1 /\ delivers it1 S' it'
  end.

(** [later it it']: [it'] is [it] after some further calls of [next()]. *)
Inductive later (it : I) : I -> Prop :=
| later_now : later it it
| later_next (it1 it2 : I) (fuel : nat) (r : option value_type) :
    later it it1 -> next fuel it1 = Some (r, it2) -> later it it2.

(** No call of [next()] on [it] returns a value any more. *)
Definition exhausted (it : I) : Prop :=
  forall it1 fuel v it2, later it it1 -> next fuel it1 <> Some (Some v, it2).

(** Once [next()] has returned empty it keeps returning empty. *)
Definition sticky (it : I) : Prop :=
  forall fuel it', next fuel it = Some (None, it') -> exhausted it'.

(** [it] is sticky now and after any number of calls. *)
Definition always_sticky (it : I) : Prop :=
  forall it1, later it it1 -> sticky it1.
End Observe.

(** A wrapper is unusable when no call of [next()] on its iterator
    returns: it is not a sequence one can pull from. *)
Definition unusable {I value_type : Type} `{Iterator I value_type}
    (w : iterator_wrapper.t I) : Prop :=
  forall fuel, next fuel (iterator_wrapper.iterator_ w) = None.

(** The number of values among the answers [rs]. *)
Definition present {value_type : Type} (rs : list (option value_type)) : nat :=
  length (List.filter (fun r => match r with Some _ => true | None => false end) rs).

(** [it] never answers empty, now or after any number of calls. *)
Definition never_empty {I value_type : Type} `{Iterator I value_type}
    (it : I) : Prop :=
  forall it1 fuel it2, later it it1 -> next fuel it1 <> Some (None, it2).

(** The function object [f] after it has been called on the elements of
    [S], in order. *)
Definition called_on {Func value_type R : Type} `{Callable Func value_type R}
    (f : Func) (S : list value_type) : Func :=
  fold_left (fun g v => snd (call g v)) S f.

(** * Properties *)

(** ** Two chains, run *)

(** [from_generator([]{ return 1; }).take(3)] passes 1, 1, 1 to [each]. *)
Example generator_take_3 :
  option_map (fun r => recorder.seen (snd r))
    (iterator_wrapper.each 4
       (fst (iterator_wrapper.take (from_generator (fun _ : unit => 1%Z)) 3))
       (recorder.mk [])) = Some [1; 1; 1]%Z.
Proof. reflexivity. Qed.

(** [range(0, 10).filter(is_even).take(2)] passes 0, 2 to [each]. *)
Example range_filter_take :
  option_map (fun r => recorder.seen (snd r))
    (iterator_wrapper.each 5
       (fst (iterator_wrapper.take
          (fst (iterator_wrapper.filter (range (0%Z : int) 10%Z) Z.even)) 2))
       (recorder.mk [])) = Some [0; 2]%Z.
Proof. reflexivity. Qed.

(** ** General facts about observations *)

Section ObserveFacts.
Context {I value_type : Type} `{Iterator I value_type}.

Lemma pulls_succ (fuel k : nat) (it : I) :
  pulls fuel (S k) it =
  match next fuel it with
  | None => None
  | Some (r, it') =>
      match pulls fuel k it' with
      | None => None
      | Some (rs, it'') => Some (r :: rs, it'')
      end
  end.
Proof. reflexivity. Qed.

Lemma pulls_fixed (fuel k : nat) (it : I) :
  next fuel it = Some (None, it) -> pulls fuel k it = Some (repeat None k, it).
Proof.
  intros Hn. induction k as [|k IH]; [reflexivity|].
  rewrite pulls_succ, Hn, IH. reflexivity.
Qed.

Lemma answers_weaken (it it' : I) (r : option value_type) (f0 : nat) :
  (forall fuel, f0 <= fuel -> next fuel it = Some (r, it')) -> answers it r it'.
Proof. intros Hf. exists f0. exact Hf. Qed.

Lemma answers_always (it it' : I) (r : option value_type) :
  (forall fuel, next fuel it = Some (r, it')) -> answers it r it'.
Proof. intros Hf. exists 0. intros fuel _. apply Hf. Qed.

Lemma answers_functional (it i1 i2 : I) (r1 r2 : option value_type) :
  answers it r1 i1 -> answers it r2 i2 -> r1 = r2 /\ i1 = i2.
Proof.
  intros [f1 H1] [f2 H2].
  specialize (H1 (Nat.max f1 f2) (Nat.le_max_l _ _)).
  specialize (H2 (Nat.max f1 f2) (Nat.le_max_r _ _)).
  rewrite H1 in H2. inversion H2. split; reflexivity.
Qed.

(** An iterator that answers empty without changing stays as it is. *)
Lemma fixed_later (it it1 : I) :
  (forall fuel, next fuel it = Some (None, it)) -> later it it1 -> it1 = it.
Proof.
  intros Hfix. induction 1 as [|it1 it2 fuel r _ IH Hn]; [reflexivity|].
  subst it1. rewrite Hfix in Hn. inversion Hn; reflexivity.
Qed.

Lemma fixed_exhausted (it : I) :
  (forall fuel, next fuel it = Some (None, it)) -> exhausted it.
Proof.
  intros Hfix it1 fuel v it2 Hl Hn.
  rewrite (fixed_later Hfix Hl), Hfix in Hn. discriminate.
Qed.

Lemma yields_delivers (S : list value_type) :
  forall it : I,
  yields it S <-> exists it1 it2, delivers it S it1 /\ answers it1 None it2.
Proof.
  induction S as [|v S IH]; intros it; simpl.
  - split.
    + intros [it' Ha]. exists it, it'. split; [reflexivity|exact Ha].
    + intros [it1 [it2 [-> Ha]]]. exists it2. exact Ha.
  - split.
    + intros [it' [Ha HY]]. apply IH in HY. destruct HY as [it1 [it2 [Hd He]]].
      exists it1, it2. split; [|exact He]. exists it'. split; assumption.
    + intros [it1 [it2 [[it' [Ha Hd]] He]]]. exists it'. split; [exact Ha|].
      apply IH. exists it1, it2. split; assumption.
Qed.

(** An iterator is at most one finite sequence. *)
Lemma yields_functional (S1 S2 : list value_type) :
  forall it : I, yields it S1 -> yields it S2 -> S1 = S2.
Proof.
  revert S2. induction S1 as [|v S1 IH]; intros [|w S2] it H1 H2; simpl in *.
  - reflexivity.
  - destruct H1 as [i1 A1]. destruct H2 as [i2 [A2 _]].
    destruct (answers_functional A1 A2) as [E _]. discriminate E.
  - destruct H1 as [i1 [A1 _]]. destruct H2 as [i2 A2].
    destruct (answers_functional A1 A2) as [E _]. discriminate E.
  - destruct H1 as [i1 [A1 Y1]]. destruct H2 as [i2 [A2 Y2]].
    destruct (answers_functional A1 A2) as [E1 E2].
    inversion E1; subst. f_equal. apply (IH _ _ Y1 Y2).
Qed.

(** Consuming a finite sequence with [each] returns, and calls the
    function object on its elements in order. *)
Lemma each_yields (S : list value_type) :
  forall (it : I), yields it S ->
  exists fuel0, forall fuel, fuel0 <= fuel ->
  forall acc, exists it',
    iterator_wrapper.each fuel (iterator_wrapper.mk it) (recorder.mk acc)
    = Some (iterator_wrapper.mk it', recorder.mk (acc ++ S)).
Proof.
  induction S as [|v S IH]; intros it HY; simpl in HY.
  - destruct HY as [it' [f0 Hf]]. exists (Datatypes.S f0).
    intros [|fuel] Hle acc; [lia|]. exists it'.
    simpl. rewrite Hf by lia. rewrite app_nil_r. reflexivity.
  - destruct HY as [it' [[f0 Hf] HY]].
    destruct (IH _ HY) as [f1 Hrec].
    exists (Datatypes.S (Nat.max f0 f1)).
    intros [|fuel] Hle acc; [lia|].
    destruct (Hrec fuel ltac:(lia) (acc ++ [v])) as [it'' Heach].
    exists it''. simpl. rewrite Hf by lia.
    rewrite Heach, <- app_assoc. reflexivity.
Qed.
End ObserveFacts.

(** ** The replaying iterator *)

Section ReplayFacts.
Context {value_type : Type}.

Lemma of_list_yields (S : list value_type) : yields (of_list S) S.
Proof.
  induction S as [|v S IH]; simpl.
  - exists (of_list []). apply answers_always. reflexivity.
  - exists (of_list S). split; [|exact IH]. apply answers_always. reflexivity.
Qed.
End ReplayFacts.

(** ** Counting the calls that reach the base *)

Section ProbeFacts.
Context {BaseIterator value_type : Type} `{Iterator BaseIterator value_type}.

(** The probe answers as its base does and has counted one entry per
    call. *)
Lemma probe_pulls (fuel k c : nat) (b : BaseIterator) :
  pulls fuel k (probe.mk c b) =
  match pulls fuel k b with
  | None => None
  | Some (rs, b') => Some (rs, probe.mk (c + k) b')
  end.
Proof.
  revert c b. induction k as [|k IH]; intros c b.
  - simpl. rewrite Nat.add_0_r. reflexivity.
  - rewrite !pulls_succ. unfold next at 1, probe_Iterator, probe.next. simpl.
    destruct (next fuel b) as [[r b']|]; [|reflexivity].
    rewrite IH. destruct (pulls fuel k b') as [[rs b'']|]; [|reflexivity].
    rewrite Nat.add_succ_r. reflexivity.
Qed.
End ProbeFacts.

(** ** take *)

Section TakeFacts.
Context {BaseIterator value_type : Type} `{Iterator BaseIterator value_type}.

Lemma take_next_zero (fuel : nat) (b : BaseIterator) :
  next fuel (take_iterator.mk 0 b) = Some (None, take_iterator.mk 0 b).
Proof. reflexivity. Qed.

Lemma take_next_succ (fuel n : nat) (b : BaseIterator) :
  next fuel (take_iterator.mk (S n) b) =
  match next fuel b with
  | None => None
  | Some (r, b') => Some (r, take_iterator.mk n b')
  end.
Proof. reflexivity. Qed.

(** [k] calls on [take(n)] are [min k n] calls on the base, answered
    verbatim, followed by empty answers that leave the base alone. *)
Lemma take_pulls (fuel k n : nat) (b : BaseIterator) :
  pulls fuel k (take_iterator.mk n b) =
  match pulls fuel (Nat.min k n) b with
  | None => None
  | Some (rs, b') =>
      Some (rs ++ repeat None (k - n), take_iterator.mk (n - k) b')
  end.
Proof.
  revert n b. induction k as [|k IH]; intros n b.
  - simpl. rewrite Nat.sub_0_r. reflexivity.
  - destruct n as [|n].
    + rewrite pulls_succ, take_next_zero, IH. simpl.
      rewrite Nat.min_0_r. simpl. rewrite Nat.sub_0_r. reflexivity.
    + rewrite pulls_succ, take_next_succ.
      change (Nat.min (S k) (S n)) with (S (Nat.min k n)).
      rewrite pulls_succ.
      destruct (next fuel b) as [[r b']|]; [|reflexivity].
      rewrite IH. destruct (pulls fuel (Nat.min k n) b') as [[rs b'']|];
        reflexivity.
Qed.

Lemma take_yields (S : list value_type) :
  forall (n : nat) (b : BaseIterator),
  yields b S -> yields (take_iterator.mk n b) (firstn n S).
Proof.
  induction S as [|v S IH]; intros [|n] b HY; simpl in *.
  - exists (take_iterator.mk 0 b). apply answers_always. reflexivity.
  - destruct HY as [b' [f0 Hf]]. exists (take_iterator.mk n b').
    exists f0. intros fuel Hle. rewrite take_next_succ, Hf by exact Hle.
    reflexivity.
  - exists (take_iterator.mk 0 b). apply answers_always. reflexivity.
  - destruct HY as [b' [[f0 Hf] HY]]. exists (take_iterator.mk n b').
    split; [|apply IH; exact HY].
    exists f0. intros fuel Hle. rewrite take_next_succ, Hf by exact Hle.
    reflexivity.
Qed.

End TakeFacts.

Section TakeClaim.
Context {BaseIterator value_type : Type} `{Iterator BaseIterator value_type}.

(** C2: [take(n)] over the finite sequence [S] is the prefix of [S] of
    length [min n |S|]; whatever the base is, [k] calls on [take(n)]
    forward the first [min k n] of them to the base and answer the others
    empty, so the base is entered at most [n] times; with a remaining
    count of zero [next()] returns empty and the base has not been
    entered. *)
Theorem take_prefix_budget (n : nat) (b : BaseIterator) :
  (forall S, yields b S ->
     yields (take_iterator.mk n b) (firstn n S) /\
     length (firstn n S) = Nat.min n (length S)) /\
  (forall fuel k c,
     pulls fuel k (take_iterator.mk n (probe.mk c b)) =
     match pulls fuel (Nat.min k n) b with
     | None => None
     | Some (rs, b') =>
         Some (rs ++ repeat None (k - n),
               take_iterator.mk (n - k) (probe.mk (c + Nat.min k n) b'))
     end) /\
  (forall fuel k c rs t,
     pulls fuel k (take_iterator.mk n (probe.mk c b)) = Some (rs, t) ->
     probe.entered (take_iterator.base_ t) <= c + n) /\
  (forall fuel c,
     next fuel (take_iterator.mk 0 (probe.mk c b)) =
     Some (None, take_iterator.mk 0 (probe.mk c b))).
Proof.
  assert (Heq : forall fuel k c,
     pulls fuel k (take_iterator.mk n (probe.mk c b)) =
     match pulls fuel (Nat.min k n) b with
     | None => None
     | Some (rs, b') =>
         Some (rs ++ repeat None (k - n),
               take_iterator.mk (n - k) (probe.mk (c + Nat.min k n) b'))
     end).
  { intros fuel k c. rewrite take_pulls, probe_pulls.
    destruct (pulls fuel (Nat.min k n) b) as [[rs b']|]; reflexivity. }
  split; [|split; [exact Heq|split]].
  - intros S HY. split; [apply take_yields; exact HY|apply length_firstn].
  - intros fuel k c rs t Hp. rewrite Heq in Hp.
    destruct (pulls fuel (Nat.min k n) b) as [[rs' b']|]; [|discriminate].
    inversion Hp; subst. simpl. lia.
  - intros fuel c. reflexivity.
Qed.
End TakeClaim.

(** C2 at [take(2)] over the sequence 1, 2, 3. *)
Lemma take_prefix_budget_witness :
  yields (take_iterator.mk 2 (of_list [1; 2; 3])) [1; 2].
Proof.
  apply (proj1 (take_prefix_budget 2 (of_list [1; 2; 3])) [1; 2; 3]).
  apply of_list_yields.
Defined.

(** ** Sticky termination *)

Section TakeSticky.
Context {BaseIterator value_type : Type} `{Iterator BaseIterator value_type}.

(** Further calls on [take] only lower the count and advance the base. *)
Lemma take_later (t t1 : take_iterator.t BaseIterator) :
  later t t1 ->
  take_iterator.num_ t1 <= take_iterator.num_ t /\
  later (take_iterator.base_ t) (take_iterator.base_ t1).
Proof.
  induction 1 as [|t1 t2 fuel r _ [IHn IHb] Hn].
  - split; [apply Nat.le_refl|apply later_now].
  - destruct t1 as [[|n1] b1]; simpl in *.
    + rewrite take_next_zero in Hn. inversion Hn; subst. simpl.
      split; assumption.
    + rewrite take_next_succ in Hn.
      destruct (next fuel b1) as [[r' b2]|] eqn:Hb; [|discriminate].
      inversion Hn; subst. simpl. split; [lia|].
      apply later_next with (1 := IHb) (2 := Hb).
Qed.

Lemma take_exhausted (n : nat) (b : BaseIterator) :
  n = 0 \/ exhausted b -> exhausted (take_iterator.mk n b).
Proof.
  intros Hor [n1 b1] fuel v t2 Hl Hn.
  apply take_later in Hl. simpl in Hl. destruct Hl as [Hle Hl].
  destruct n1 as [|n1].
  - rewrite take_next_zero in Hn. discriminate.
  - destruct Hor as [->|Hex]; [lia|].
    rewrite take_next_succ in Hn.
    destruct (next fuel b1) as [[r' b2]|] eqn:Hb; [|discriminate].
    inversion Hn; subst. apply (Hex _ _ _ _ Hl Hb).
Qed.

Lemma take_sticky (n : nat) (b : BaseIterator) :
  sticky b -> sticky (take_iterator.mk n b).
Proof.
  intros Hs fuel t' Hn. destruct n as [|n].
  - rewrite take_next_zero in Hn. inversion Hn; subst.
    apply take_exhausted. left. reflexivity.
  - rewrite take_next_succ in Hn.
    destruct (next fuel b) as [[r b']|] eqn:Hb; [|discriminate].
    inversion Hn; subst. apply take_exhausted. right.
    apply (Hs _ _ Hb).
Qed.
End TakeSticky.

Section TakeWhileSticky.
Context {BaseIterator TestFunc value_type : Type}.
Context `{Iterator BaseIterator value_type}.
Context `{Callable TestFunc value_type bool}.

Lemma take_while_next_ended (fuel : nat) (tw : take_while_iterator.t BaseIterator TestFunc) :
  take_while_iterator.ended_ tw = true -> next fuel tw = Some (None, tw).
Proof.
  intros He. unfold next, take_while_iterator_Iterator, take_while_iterator.next.
  rewrite He. reflexivity.
Qed.

(** An empty answer leaves the flag set. *)
Lemma take_while_empty_ended (fuel : nat)
    (tw tw' : take_while_iterator.t BaseIterator TestFunc) :
  next fuel tw = Some (None, tw') -> take_while_iterator.ended_ tw' = true.
Proof.
  unfold next, take_while_iterator_Iterator, take_while_iterator.next.
  destruct (take_while_iterator.ended_ tw) eqn:He.
  - intros Hn. inversion Hn; subst. exact He.
  - destruct (concept.next fuel (take_while_iterator.base_ tw)) as [[[v|] b]|];
      [|intros Hn; inversion Hn; reflexivity|discriminate].
    destruct (call (take_while_iterator.test_func_ tw) v) as [[|] f];
      intros Hn; inversion Hn; reflexivity.
Qed.

Lemma take_while_ended_later (tw tw1 : take_while_iterator.t BaseIterator TestFunc) :
  take_while_iterator.ended_ tw = true -> later tw tw1 -> tw1 = tw.
Proof.
  intros He. induction 1 as [|tw1 tw2 fuel r _ IH Hn]; [reflexivity|].
  subst tw1. rewrite (take_while_next_ended fuel _ He) in Hn.
  inversion Hn; reflexivity.
Qed.

Lemma take_while_sticky (tw : take_while_iterator.t BaseIterator TestFunc) :
  sticky tw.
Proof.
  intros fuel tw' Hn tw1 fuel1 v tw2 Hl Hn1.
  pose proof (take_while_empty_ended _ _ Hn) as He.
  rewrite (take_while_ended_later He Hl) in Hn1.
  rewrite (take_while_next_ended fuel1 _ He) in Hn1. discriminate.
Qed.
End TakeWhileSticky.

Section ReplaySticky.
Context {value_type : Type}.

Lemma replay_later (r r1 : replay.t value_type) :
  later r r1 -> exists j, replay.script r1 = skipn j (replay.script r).
Proof.
  induction 1 as [|r1 r2 fuel a _ [j IH] Hn].
  - exists 0. reflexivity.
  - unfold next, replay_Iterator, replay.next in Hn.
    destruct (replay.script r1) as [|a' rest] eqn:Hs.
    + inversion Hn; subst. exists j. rewrite Hs. exact IH.
    + inversion Hn; subst. exists (1 + j).
      rewrite <- skipn_skipn, <- IH. reflexivity.
Qed.

Lemma replay_empty_exhausted : exhausted (replay.mk (@nil (option value_type))).
Proof.
  intros [s1] fuel v r2 Hl Hn. apply replay_later in Hl.
  destruct Hl as [j Hj]. simpl in Hj. rewrite skipn_nil in Hj. subst s1.
  discriminate Hn.
Qed.

(** A finite sequence stays empty once it has reported empty. *)
Lemma of_list_always_sticky (S : list value_type) : always_sticky (of_list S).
Proof.
  intros [s1] Hl fuel r' Hn. apply replay_later in Hl.
  destruct Hl as [j Hj]. simpl in Hj.
  unfold next, replay_Iterator, replay.next in Hn. simpl in Hn.
  destruct s1 as [|a rest].
  - inversion Hn; subst. apply replay_empty_exhausted.
  - inversion Hn; subst.
    assert (Hin : In None (List.map Some S)).
    { rewrite <- (firstn_skipn j). apply in_or_app. right.
      rewrite <- Hj. left. reflexivity. }
    apply in_map_iff in Hin. destruct Hin as [x [Hx _]]. discriminate Hx.
Qed.
End ReplaySticky.

Section StickyClaim.
Context {BaseIterator TestFunc value_type : Type}.
Context `{Iterator BaseIterator value_type}.
Context `{Callable TestFunc value_type bool}.

End StickyClaim.



(** ** take_while *)

Section TakeWhileFacts.
Context {BaseIterator value_type : Type} `{Iterator BaseIterator value_type}.
Variable p : value_type -> bool.

Lemma take_while_next_active (fuel : nat) (b : BaseIterator) :
  next fuel (take_while_iterator.mk p b false) =
  match next fuel b with
  | None => None
  | Some (Some v, b') =>
      if p v then Some (Some v, take_while_iterator.mk p b' false)
      else Some (None, take_while_iterator.mk p b' true)
  | Some (None, b') => Some (None, take_while_iterator.mk p b' true)
  end.
Proof.
  unfold next at 1, take_while_iterator_Iterator, take_while_iterator.next.
  simpl. destruct (next fuel b) as [[[v|] b']|]; reflexivity.
Qed.

Lemma take_while_answers_pass (b b' : BaseIterator) (v : value_type) :
  answers b (Some v) b' -> p v = true ->
  answers (take_while_iterator.mk p b false) (Some v)
          (take_while_iterator.mk p b' false).
Proof.
  intros [f0 Hf] Hp. exists f0. intros fuel Hle.
  rewrite take_while_next_active, Hf, Hp by exact Hle. reflexivity.
Qed.

Lemma take_while_answers_fail (b b' : BaseIterator) (v : value_type) :
  answers b (Some v) b' -> p v = false ->
  answers (take_while_iterator.mk p b false) None
          (take_while_iterator.mk p b' true).
Proof.
  intros [f0 Hf] Hp. exists f0. intros fuel Hle.
  rewrite take_while_next_active, Hf, Hp by exact Hle. reflexivity.
Qed.

Lemma take_while_answers_end (b b' : BaseIterator) :
  answers b None b' ->
  answers (take_while_iterator.mk p b false) None
          (take_while_iterator.mk p b' true).
Proof.
  intros [f0 Hf]. exists f0. intros fuel Hle.
  rewrite take_while_next_active, Hf by exact Hle. reflexivity.
Qed.

Lemma take_while_yields (P rest : list value_type) :
  forallb p P = true ->
  match rest with [] => True | x :: _ => p x = false end ->
  forall b : BaseIterator,
  yields b (P ++ rest) -> yields (take_while_iterator.mk p b false) P.
Proof.
  intros HP Hrest. induction P as [|v P IH]; intros b HY; simpl in *.
  - destruct rest as [|x rest]; simpl in HY.
    + destruct HY as [b' Ha]. eexists. apply take_while_answers_end, Ha.
    + destruct HY as [b' [Ha _]]. eexists.
      apply take_while_answers_fail with (1 := Ha) (2 := Hrest).
  - apply andb_true_iff in HP. destruct HP as [Hv HP].
    destruct HY as [b' [Ha HY]].
    exists (take_while_iterator.mk p b' false). split.
    + apply take_while_answers_pass; assumption.
    + apply IH; assumption.
Qed.
(** Whatever the base goes on to do, the elements it has delivered so far
    are delivered by [take_while] as long as they all pass. *)
Lemma take_while_delivers (P : list value_type) :
  forallb p P = true ->
  forall b b1 : BaseIterator,
  delivers b P b1 ->
  delivers (take_while_iterator.mk p b false) P
           (take_while_iterator.mk p b1 false).
Proof.
  induction P as [|v P IH]; intros HP b b1 Hd; simpl in *.
  - subst b1. reflexivity.
  - apply andb_true_iff in HP. destruct HP as [Hv HP].
    destruct Hd as [b' [Ha Hd]].
    exists (take_while_iterator.mk p b' false). split.
    + apply take_while_answers_pass; assumption.
    + apply IH; assumption.
Qed.
End TakeWhileFacts.

Section TakeWhileClaim.
Context {BaseIterator value_type : Type} `{Iterator BaseIterator value_type}.

(** C3: over a base that is the finite sequence [P ++ rest], where [p]
    holds on all of [P] and [rest] is empty or starts with an element on
    which [p] fails, [take_while(p)] is the sequence [P].  Over any base,
    finite or not: once the base has delivered elements [P] that all pass,
    [take_while] has delivered exactly [P], is still active and holds the
    base as it then is; if the base next answers an element on which [p]
    fails, or empty, [take_while] answers empty and holds the base after
    that answer, the failing element gone.  After an empty answer every
    further call answers empty and leaves the object as it is, so a base
    that counts its entries shows none. *)
Theorem take_while_maximal_prefix (p : value_type -> bool) (b : BaseIterator) :
  (forall P rest,
     forallb p P = true ->
     match rest with [] => True | x :: _ => p x = false end ->
     yields b (P ++ rest) ->
     yields (take_while_iterator.mk p b false) P) /\
  (forall P b1,
     forallb p P = true -> delivers b P b1 ->
     delivers (take_while_iterator.mk p b false) P
              (take_while_iterator.mk p b1 false) /\
     (forall x b2,
        answers b1 (Some x) b2 -> p x = false ->
        answers (take_while_iterator.mk p b1 false) None
                (take_while_iterator.mk p b2 true)) /\
     (forall b2,
        answers b1 None b2 ->
        answers (take_while_iterator.mk p b1 false) None
                (take_while_iterator.mk p b2 true))) /\
  (forall x b',
     answers b (Some x) b' -> p x = false ->
     answers (take_while_iterator.mk p b false) None
             (take_while_iterator.mk p b' true)) /\
  (forall fuel (tw tw' : take_while_iterator.t (probe.t BaseIterator)
                                               (value_type -> bool)),
     next fuel tw = Some (None, tw') ->
     forall fuel' r tw'',
       next fuel' tw' = Some (r, tw'') <->
       r = None /\ tw'' = tw').
Proof.
  split; [|split; [|split]].
  - intros P rest HP Hrest HY. apply (take_while_yields p P rest HP Hrest b HY).
  - intros P b1 HP Hd. split; [|split].
    + apply take_while_delivers; assumption.
    + intros x b2 Ha Hp. apply (take_while_answers_fail p Ha Hp).
    + intros b2 Ha. apply (take_while_answers_end p Ha).
  - intros x b' Ha Hp. apply (take_while_answers_fail p Ha Hp).
  - intros fuel tw tw' Hn fuel' r tw''.
    pose proof (take_while_empty_ended _ _ Hn) as He.
    rewrite (take_while_next_ended fuel' _ He). split.
    + intros E. inversion E. split; reflexivity.
    + intros [-> ->]. reflexivity.
Qed.
End TakeWhileClaim.

(** C3 at [take_while(even)] over 2, 4, 5, 6, and at [take_while(x < 3)]
    over the unbounded generator 0, 1, 2, ...: it delivers 0, 1, 2 and then
    answers empty, the generator having been asked for 3 as well. *)
Lemma take_while_maximal_prefix_witness :
  yields (take_while_iterator.mk Nat.even (of_list [2; 4; 5; 6]) false) [2; 4] /\
  delivers
    (take_while_iterator.mk (fun x => x <? 3)
       (generate_iterator.mk (counter.mk 0)) false)
    [0; 1; 2]
    (take_while_iterator.mk (fun x => x <? 3)
       (generate_iterator.mk (counter.mk 3)) false) /\
  answers
    (take_while_iterator.mk (fun x => x <? 3)
       (generate_iterator.mk (counter.mk 3)) false)
    None
    (take_while_iterator.mk (fun x => x <? 3)
       (generate_iterator.mk (counter.mk 4)) true).
Proof.
  assert (Hd : delivers (generate_iterator.mk (counter.mk 0)) [0; 1; 2]
                        (generate_iterator.mk (counter.mk 3))).
  { simpl.
    exists (generate_iterator.mk (counter.mk 1)).
    split; [apply answers_always; reflexivity|].
    exists (generate_iterator.mk (counter.mk 2)).
    split; [apply answers_always; reflexivity|].
    exists (generate_iterator.mk (counter.mk 3)).
    split; [apply answers_always; reflexivity|reflexivity]. }
  destruct (proj1 (proj2 (take_while_maximal_prefix (fun x => x <? 3)
                            (generate_iterator.mk (counter.mk 0))))
              [0; 1; 2] (generate_iterator.mk (counter.mk 3)) eq_refl Hd)
    as [Hdel [Hfail _]].
  split; [|split].
  - apply (proj1 (take_while_maximal_prefix Nat.even (of_list [2; 4; 5; 6]))
             [2; 4] [5; 6]).
    + reflexivity.
    + reflexivity.
    + apply of_list_yields.
  - exact Hdel.
  - apply (Hfail 3 (generate_iterator.mk (counter.mk 4))).
    + apply answers_always. reflexivity.
    + reflexivity.
Defined.

(** ** filter *)

Section FilterFacts.
Context {BaseIterator value_type : Type} `{Iterator BaseIterator value_type}.
Variable p : value_type -> bool.

Lemma filter_next_succ (fuel : nat) (b : BaseIterator) :
  next (S fuel) (filter_iterator.mk p b) =
  match next fuel b with
  | None => None
  | Some (Some v, b') =>
      if p v then Some (Some v, filter_iterator.mk p b')
      else next fuel (filter_iterator.mk p b')
  | Some (None, b') => Some (None, filter_iterator.mk p b')
  end.
Proof.
  unfold next at 1, filter_iterator_Iterator. simpl.
  destruct (next fuel b) as [[[v|] b']|]; reflexivity.
Qed.

Lemma filter_answers_end (b b' : BaseIterator) :
  answers b None b' ->
  answers (filter_iterator.mk p b) None (filter_iterator.mk p b').
Proof.
  intros [f0 Hf]. exists (S f0). intros [|fuel] Hle; [lia|].
  rewrite filter_next_succ, Hf by lia. reflexivity.
Qed.

Lemma filter_answers_pass (b b' : BaseIterator) (v : value_type) :
  answers b (Some v) b' -> p v = true ->
  answers (filter_iterator.mk p b) (Some v) (filter_iterator.mk p b').
Proof.
  intros [f0 Hf] Hp. exists (S f0). intros [|fuel] Hle; [lia|].
  rewrite filter_next_succ, Hf, Hp by lia. reflexivity.
Qed.

(** A rejected element costs one turn of the loop: the call goes on as a
    call on the filter over the base after that element. *)
Lemma filter_answers_skip (b b' : BaseIterator) (v : value_type)
    (r : option value_type) (it : filter_iterator.t BaseIterator (value_type -> bool)) :
  answers b (Some v) b' -> p v = false ->
  answers (filter_iterator.mk p b') r it ->
  answers (filter_iterator.mk p b) r it.
Proof.
  intros [f0 Hf] Hp [f1 Hr]. exists (S (Nat.max f0 f1)).
  intros [|fuel] Hle; [lia|].
  rewrite filter_next_succ, Hf, Hp by lia. apply Hr. lia.
Qed.

Lemma filter_yields (S : list value_type) :
  forall b : BaseIterator,
  yields b S -> yields (filter_iterator.mk p b) (List.filter p S).
Proof.
  induction S as [|v S IH]; intros b HY; simpl in *.
  - destruct HY as [b' Ha]. eexists. apply filter_answers_end, Ha.
  - destruct HY as [b' [Ha HY]]. specialize (IH _ HY).
    destruct (p v) eqn:Hp; simpl.
    + exists (filter_iterator.mk p b'). split; [|exact IH].
      apply filter_answers_pass; assumption.
    + destruct (List.filter p S) as [|w L]; simpl in *.
      * destruct IH as [it Ha']. exists it.
        apply (filter_answers_skip Ha Hp Ha').
      * destruct IH as [it [Ha' HY']]. exists it. split; [|exact HY'].
        apply (filter_answers_skip Ha Hp Ha').
Qed.

(** One call of [next()] on the filter runs the base past every rejected
    element and past the element it returns. *)
Lemma filter_scan (rejected : list value_type) :
  forallb (fun x => negb (p x)) rejected = true ->
  forall (b b1 b2 : BaseIterator) (r : option value_type),
  delivers b rejected b1 ->
  answers b1 r b2 ->
  match r with Some v => p v = true | None => True end ->
  answers (filter_iterator.mk p b) r (filter_iterator.mk p b2).
Proof.
  induction rejected as [|x rejected IH]; intros Hrej b b1 b2 r Hd Ha Hr;
    simpl in *.
  - subst b1. destruct r as [v|].
    + apply filter_answers_pass; assumption.
    + apply filter_answers_end; assumption.
  - apply andb_true_iff in Hrej. destruct Hrej as [Hx Hrej].
    apply negb_true_iff in Hx.
    destruct Hd as [b' [Hax Hd]].
    apply (filter_answers_skip Hax Hx).
    apply (IH Hrej _ _ _ _ Hd Ha Hr).
Qed.
End FilterFacts.

Section FilterClaim.
Context {BaseIterator value_type : Type} `{Iterator BaseIterator value_type}.

(** C4: over a base that is the finite sequence [S], [filter(p)] is the
    sequence of the elements of [S] on which [p] holds, in the order and
    multiplicity of [S].  A call of [next()] that skips the elements
    [rejected] leaves the base after them and after the element returned;
    the filter keeps nothing but its function object and that base. *)
Theorem filter_subsequence (p : value_type -> bool) (b : BaseIterator) :
  (forall S, yields b S ->
     yields (filter_iterator.mk p b) (List.filter p S)) /\
  (forall rejected v b1 b2,
     forallb (fun x => negb (p x)) rejected = true -> p v = true ->
     delivers b rejected b1 -> answers b1 (Some v) b2 ->
     answers (filter_iterator.mk p b) (Some v) (filter_iterator.mk p b2)) /\
  (forall rejected b1 b2,
     forallb (fun x => negb (p x)) rejected = true ->
     delivers b rejected b1 -> answers b1 None b2 ->
     answers (filter_iterator.mk p b) None (filter_iterator.mk p b2)).
Proof.
  split; [|split].
  - intros S HY. apply filter_yields, HY.
  - intros rejected v b1 b2 Hrej Hv Hd Ha.
    apply (filter_scan p rejected Hrej _ Hd Ha Hv).
  - intros rejected b1 b2 Hrej Hd Ha.
    apply (filter_scan p rejected Hrej _ Hd Ha I).
Qed.
End FilterClaim.

(** C4 at [filter(even)] over 1, 2, 3, 4, 4, 5. *)
Lemma filter_subsequence_witness :
  yields (filter_iterator.mk Nat.even (of_list [1; 2; 3; 4; 4; 5])) [2; 4; 4].
Proof.
  apply (proj1 (filter_subsequence Nat.even (of_list [1; 2; 3; 4; 4; 5]))
           [1; 2; 3; 4; 4; 5]).
  apply of_list_yields.
Defined.

(** ** map *)

Section MapFacts.
Context {BaseIterator A B : Type} `{Iterator BaseIterator A}.
Variable f : A -> B.

Lemma map_next_plain (fuel : nat) (b : BaseIterator) :
  next fuel (map_iterator.mk f b) =
  match next fuel b with
  | None => None
  | Some (Some v, b') => Some (Some (f v), map_iterator.mk f b')
  | Some (None, b') => Some (None, map_iterator.mk f b')
  end.
Proof.
  unfold next at 1, map_iterator_Iterator, map_iterator.next. simpl.
  destruct (next fuel b) as [[[v|] b']|]; reflexivity.
Qed.

Lemma map_next_spy (fuel c : nat) (b : BaseIterator) :
  next fuel (map_iterator.mk (spy.mk c f) b) =
  match next fuel b with
  | None => None
  | Some (Some v, b') =>
      Some (Some (f v), map_iterator.mk (spy.mk (S c) f) b')
  | Some (None, b') => Some (None, map_iterator.mk (spy.mk c f) b')
  end.
Proof.
  unfold next at 1, map_iterator_Iterator, map_iterator.next. simpl.
  destruct (next fuel b) as [[[v|] b']|]; reflexivity.
Qed.

Lemma map_yields (S : list A) :
  forall b : BaseIterator,
  yields b S -> yields (map_iterator.mk f b) (List.map f S).
Proof.
  induction S as [|v S IH]; intros b HY; simpl in *.
  - destruct HY as [b' [f0 Hf]]. exists (map_iterator.mk f b').
    exists f0. intros fuel Hle. rewrite map_next_plain, Hf by exact Hle.
    reflexivity.
  - destruct HY as [b' [[f0 Hf] HY]]. exists (map_iterator.mk f b').
    split; [|apply IH, HY].
    exists f0. intros fuel Hle. rewrite map_next_plain, Hf by exact Hle.
    reflexivity.
Qed.

(** After the elements requested so far, [f] has been called once for
    each of them. *)
Lemma map_delivers_spy (S : list A) :
  forall (c : nat) (b b' : BaseIterator),
  delivers b S b' ->
  delivers (map_iterator.mk (spy.mk c f) b) (List.map f S)
           (map_iterator.mk (spy.mk (c + length S) f) b').
Proof.
  induction S as [|v S IH]; intros c b b' Hd; simpl in *.
  - subst b'. rewrite Nat.add_0_r. reflexivity.
  - destruct Hd as [b1 [[f0 Hf] Hd]].
    exists (map_iterator.mk (spy.mk (Datatypes.S c) f) b1). split.
    + exists f0. intros fuel Hle. rewrite map_next_spy, Hf by exact Hle.
      reflexivity.
    + rewrite Nat.add_succ_r. apply (IH (Datatypes.S c)), Hd.
Qed.

Lemma map_answers_end_spy (c : nat) (b b' : BaseIterator) :
  answers b None b' ->
  answers (map_iterator.mk (spy.mk c f) b) None
          (map_iterator.mk (spy.mk c f) b').
Proof.
  intros [f0 Hf]. exists f0. intros fuel Hle.
  rewrite map_next_spy, Hf by exact Hle. reflexivity.
Qed.
End MapFacts.

Section MapClaim.
Context {BaseIterator A B : Type} `{Iterator BaseIterator A}.

(** C5: over a base that is the finite sequence [S], [map(f)] is the
    sequence [f s] for [s] in [S], of the same length and in the same
    order.  With [f] counting its calls: once the elements of [S] have
    been requested, [f] has been called [|S|] times, once per element
    produced, and the empty answer at the end calls it no more. *)
Theorem map_elementwise (f : A -> B) (b : BaseIterator) :
  (forall S, yields b S ->
     yields (map_iterator.mk f b) (List.map f S) /\
     length (List.map f S) = length S) /\
  (forall S c b',
     delivers b S b' ->
     delivers (map_iterator.mk (spy.mk c f) b) (List.map f S)
              (map_iterator.mk (spy.mk (c + length S) f) b')) /\
  (forall c b',
     answers b None b' ->
     answers (map_iterator.mk (spy.mk c f) b) None
             (map_iterator.mk (spy.mk c f) b')).
Proof.
  split; [|split].
  - intros S HY. split; [apply map_yields, HY|apply length_map].
  - intros S c b' Hd. apply map_delivers_spy, Hd.
  - intros c b' Ha. apply map_answers_end_spy, Ha.
Qed.
End MapClaim.

(** C5 at [map(double)] over 1, 2, 3. *)
Lemma map_elementwise_witness :
  yields (map_iterator.mk (fun x => 2 * x) (of_list [1; 2; 3])) [2; 4; 6].
Proof.
  apply (proj1 (map_elementwise (fun x => 2 * x) (of_list [1; 2; 3])) [1; 2; 3]).
  apply of_list_yields.
Defined.

(** ** range *)

Section RangeFacts.
Context {T FuncNext : Type} `{Callable FuncNext T (T * T)}.
Variable is_last : T -> bool.

Lemma range_next_last (fuel : nat) (pos : T) (s : FuncNext) :
  is_last pos = true ->
  next fuel (range_iterator.mk pos is_last s) =
  Some (None, range_iterator.mk pos is_last s).
Proof.
  intros Hl. unfold next, range_iterator_Iterator, range_iterator.next.
  simpl. unfold call at 1, function_Callable. rewrite Hl. reflexivity.
Qed.

Lemma range_next_step (fuel : nat) (pos : T) (s : FuncNext) :
  is_last pos = false ->
  next fuel (range_iterator.mk pos is_last s) =
  let '((v, a), n) := call s pos in
  Some (Some v, range_iterator.mk a is_last n).
Proof.
  intros Hl. unfold next, range_iterator_Iterator, range_iterator.next.
  simpl. unfold call at 1, function_Callable. rewrite Hl. reflexivity.
Qed.

(** A predicate that is a plain function is the same at every call. *)
Lemma range_later_is_last (it it1 : range_iterator.t T (T -> bool) FuncNext) :
  later it it1 -> range_iterator.is_last_ it1 = range_iterator.is_last_ it.
Proof.
  induction 1 as [|it1 it2 fuel r _ IH Hn]; [reflexivity|].
  rewrite <- IH. clear IH.
  unfold next, range_iterator_Iterator, range_iterator.next in Hn.
  unfold call at 1, function_Callable in Hn.
  destruct (range_iterator.is_last_ it1 (range_iterator.actual_ it1)).
  - inversion Hn; reflexivity.
  - destruct (call (range_iterator.func_next_ it1) (range_iterator.actual_ it1))
      as [[v a] n].
    inversion Hn; reflexivity.
Qed.
End RangeFacts.

Section RangeClaim.
Context {T FuncNext : Type} `{Callable FuncNext T (T * T)}.

(** C7: a range whose [is_last] holds on the current position answers
    empty, is left unchanged by the call and so answers empty ever after;
    a range whose [is_last] fails on the current position calls the step
    function once and answers the value it returns, keeping the position
    the step function left.  The answer is empty exactly when [is_last]
    holds on the current position. *)
Theorem range_next_cases (is_last : T -> bool) (step : FuncNext) (c : nat)
    (pos : T) (fuel : nat) :
  let it := range_iterator.mk pos is_last (spy.mk c step) in
  (is_last pos = true -> next fuel it = Some (None, it) /\ exhausted it) /\
  (is_last pos = false ->
     next fuel it =
     let '((v, a), n) := call step pos in
     Some (Some v, range_iterator.mk a is_last (spy.mk (S c) n))) /\
  ((exists it', next fuel it = Some (None, it')) <-> is_last pos = true).
Proof.
  intros it. subst it. split; [|split].
  - intros Hl. split; [apply range_next_last, Hl|].
    apply fixed_exhausted. intros fuel'. apply range_next_last, Hl.
  - intros Hl. rewrite range_next_step by exact Hl.
    unfold call at 1, spy_Callable, spy.call. simpl.
    destruct (call step pos) as [[v a] n]. reflexivity.
  - split.
    + intros [it' Hn]. destruct (is_last pos) eqn:Hl; [reflexivity|].
      rewrite range_next_step in Hn by exact Hl.
      destruct (call (spy.mk c step) pos) as [[v a] n]. discriminate.
    + intros Hl. eexists. apply range_next_last, Hl.
Qed.
End RangeClaim.

(** C7 at the position 5 of [range(0, 5)], and at its position 0. *)
Lemma range_next_cases_witness :
  exhausted (range_iterator.mk 5%Z (fun v => Z.eqb v 5)
               (spy.mk 0 (fun v : int => post_increment v))) /\
  next 0 (range_iterator.mk 0%Z (fun v => Z.eqb v 5)
            (spy.mk 0 (fun v : int => post_increment v))) =
  Some (Some 0%Z, range_iterator.mk 1%Z (fun v => Z.eqb v 5)
                    (spy.mk 1 (fun v : int => post_increment v))).
Proof.
  split.
  - apply (proj1 (range_next_cases (fun v => Z.eqb v 5)
                    (fun v : int => post_increment v) 0 5%Z 0)).
    reflexivity.
  - exact (proj1 (proj2 (range_next_cases (fun v => Z.eqb v 5)
                    (fun v : int => post_increment v) 0 0%Z 0)) eq_refl).
Defined.

(** ** The convenience ranges *)

Section RangeEnd.
Context {T NextFunc : Type}.
Context `{EqualityComparable T} `{Incrementable T}.
Context `{Callable NextFunc T (T * T)}.
Hypothesis eq_op_spec : forall x y : T, eq_op x y = true <-> x = y.

Lemma range_step_answers (end_ pos : T) (s : NextFunc) (fuel : nat) :
  pos <> end_ ->
  exists v it',
    next fuel (range_iterator.mk pos (fun v : T => eq_op v end_) s) =
    Some (Some v, it').
Proof.
  intros Hne.
  assert (Hl : (fun v : T => eq_op v end_) pos = false).
  { destruct (eq_op pos end_) eqn:E; [|reflexivity].
    apply eq_op_spec in E. contradiction. }
  rewrite range_next_step by exact Hl.
  destruct (call s pos) as [[v a] n]. eexists. eexists. reflexivity.
Qed.

(** C10: both convenience overloads test [v == end] and nothing else:
    [range(begin, end)] is [range(begin, end, step)] with [v++] as step,
    and that is the general range with [is_last] the equality with [end].
    At a position other than [end] a call of [next()] answers a value.
    So when no position the sequence ever holds equals [end], every call
    answers a value, at every point of its life. *)
Theorem range_stops_only_at_end (begin_ end_ : T) (next_func : NextFunc) :
  range begin_ end_ =
    range_step begin_ end_ (fun v : T => post_increment v) /\
  range_step begin_ end_ next_func =
    range_from begin_ (fun v : T => eq_op v end_) next_func /\
  (forall fuel pos (s : NextFunc),
     pos <> end_ ->
     exists v it',
       next fuel (range_iterator.mk pos (fun v : T => eq_op v end_) s) =
       Some (Some v, it')) /\
  ((forall it1,
      later (iterator_wrapper.iterator_ (range_step begin_ end_ next_func)) it1 ->
      range_iterator.actual_ it1 <> end_) ->
   forall it1,
     later (iterator_wrapper.iterator_ (range_step begin_ end_ next_func)) it1 ->
     forall fuel, exists v it2, next fuel it1 = Some (Some v, it2)).
Proof.
  split; [reflexivity|split; [reflexivity|split]].
  - intros fuel pos s Hne. apply range_step_answers, Hne.
  - intros Hnever it1 Hl fuel.
    pose proof (Hnever _ Hl) as Hne.
    pose proof (range_later_is_last Hl) as His.
    destruct it1 as [pos l s]. simpl in *. subst l.
    apply range_step_answers, Hne.
Qed.
End RangeEnd.

(** Stepping by two from 0 keeps the position even. *)
Lemma int_wrap_even (v : Z) :
  (v mod 2 = 0)%Z -> (int_wrap (v + 2) mod 2 = 0)%Z.
Proof.
  unfold int_wrap. change (2 ^ 31)%Z with 2147483648%Z.
  change (2 ^ 32)%Z with 4294967296%Z. intros Hv.
  Z.div_mod_to_equations. lia.
Qed.

(** A step that is a plain function is the same at every call. *)
Lemma range_later_func_next {T : Type}
    (it it1 : range_iterator.t T (T -> bool) (T -> T * T)) :
  later it it1 -> range_iterator.func_next_ it1 = range_iterator.func_next_ it.
Proof.
  induction 1 as [|it1 it2 fuel r _ IH Hn]; [reflexivity|].
  rewrite <- IH. clear IH.
  unfold next, range_iterator_Iterator, range_iterator.next in Hn.
  unfold call, function_Callable in Hn.
  destruct (range_iterator.is_last_ it1 (range_iterator.actual_ it1)).
  - inversion Hn; reflexivity.
  - destruct (range_iterator.func_next_ it1 (range_iterator.actual_ it1))
      as [v a].
    inversion Hn; reflexivity.
Qed.

Lemma range_by_two_even (it1 : range_iterator.t int (int -> bool) (int -> int * int)) :
  later (iterator_wrapper.iterator_
           (range_step 0%Z 5%Z by_two)) it1 ->
  (range_iterator.actual_ it1 mod 2 = 0)%Z.
Proof.
  induction 1 as [|it1 it2 fuel r Hl IH Hn]; [reflexivity|].
  pose proof (range_later_is_last Hl) as His.
  pose proof (range_later_func_next Hl) as Hfn.
  destruct it1 as [pos l s]. simpl in *. subst l s.
  unfold next, range_iterator_Iterator, range_iterator.next in Hn.
  unfold call, function_Callable in Hn. simpl in Hn.
  destruct (eq_op pos 5%Z).
  - inversion Hn; subst. exact IH.
  - inversion Hn; subst. simpl. apply int_wrap_even, IH.
Qed.

(** C10 at [range(0, 5, step)] with a step of two: after 0, 2 and 4 the
    position is 6, past the end, and the next call answers 6. *)
Lemma range_stops_only_at_end_witness :
  exists v it2,
    next 0 (range_iterator.mk 6%Z (fun v : int => eq_op v 5%Z)
              by_two) = Some (Some v, it2).
Proof.
  apply (proj2 (proj2 (proj2
    (range_stops_only_at_end (T := int) Z.eqb_eq 0%Z 5%Z
       by_two)))).
  - intros it1 Hl E. apply range_by_two_even in Hl. rewrite E in Hl.
    discriminate Hl.
  - apply later_next with (it1 := range_iterator.mk 4%Z (fun v : int => eq_op v 5%Z) by_two) 
      (fuel := 0) (r := Some 4%Z); [|reflexivity].
    apply later_next with (it1 := range_iterator.mk 2%Z (fun v : int => eq_op v 5%Z) by_two) 
      (fuel := 0) (r := Some 2%Z); [|reflexivity].
    apply later_next with (it1 := range_iterator.mk 0%Z (fun v : int => eq_op v 5%Z) by_two) 
      (fuel := 0) (r := Some 0%Z); [|reflexivity].
    apply later_now.
Defined.

(** ** Consuming [range(0, 5)] *)

(** C9: [range(0, 5).each(f)] returns, given fuel for its six calls of
    [next()], having called [f] on 0, 1, 2, 3, 4 in this order and on nothing
    else; the range is left at the position 5. *)
Theorem range_0_5_each (fuel : nat) :
  6 <= fuel ->
  iterator_wrapper.each fuel (range (0%Z : int) 5%Z) (recorder.mk []) =
  Some (range (5%Z : int) 5%Z, recorder.mk [0; 1; 2; 3; 4]%Z).
Proof.
  intros Hle.
  do 6 (destruct fuel as [|fuel]; [lia|]).
  reflexivity.
Qed.

Lemma range_0_5_each_witness :
  iterator_wrapper.each 6 (range (0%Z : int) 5%Z) (recorder.mk []) =
  Some (range (5%Z : int) 5%Z, recorder.mk [0; 1; 2; 3; 4]%Z).
Proof.
  apply (@range_0_5_each 6). apply Nat.le_refl.
Defined.

(** ** Building a chain *)

Section Construction.
Context {F B : Type} `{Callable F int B}.

(** C8: in [range(0, 1000000).map(f)] as built, [f] is stored as it was
    passed, uncalled, and the range is at its first position; the first
    call of [next()] is the one that calls [f], once. *)
Theorem map_construction_is_lazy (f : F) (c : nat) :
  let w := fst (iterator_wrapper.map (range (0%Z : int) 1000000%Z) (spy.mk c f)) in
  map_iterator.map_func_ (iterator_wrapper.iterator_ w) = spy.mk c f /\
  spy.calls (map_iterator.map_func_ (iterator_wrapper.iterator_ w)) = c /\
  range_iterator.actual_ (map_iterator.base_ (iterator_wrapper.iterator_ w)) = 0%Z /\
  (forall fuel, exists r it,
     next fuel (iterator_wrapper.iterator_ w) = Some (Some r, it) /\
     spy.calls (map_iterator.map_func_ it) = S c).
Proof.
  intros w. subst w. split; [reflexivity|split; [reflexivity|split; [reflexivity|]]].
  intros fuel. simpl.
  unfold next, map_iterator_Iterator, map_iterator.next. simpl.
  unfold next, range_iterator_Iterator, range_iterator.next. simpl.
  unfold call at 1, spy_Callable, spy.call. simpl.
  destruct (@call F int B _ f 0%Z) as [r f'].
  exists r. eexists. split; reflexivity.
Qed.
End Construction.

Section ChainOps.
Context {I A : Type} `{Iterator I A}.

End ChainOps.



(** * Further properties of the header *)

(** ** Reachability *)

Section LaterFacts.
Context {I value_type : Type} `{Iterator I value_type}.

Lemma later_trans (a b c : I) : later a b -> later b c -> later a c.
Proof.
  intros Hab Hbc. induction Hbc as [|c1 c2 fuel r _ IH Hn]; [exact Hab|].
  apply later_next with (1 := IH) (2 := Hn).
Qed.

Lemma later_first (a b c : I) (fuel : nat) (r : option value_type) :
  next fuel a = Some (r, b) -> later b c -> later a c.
Proof.
  intros Hn Hbc. apply later_trans with (b := b); [|exact Hbc].
  apply later_next with (1 := later_now a) (2 := Hn).
Qed.

Lemma exhausted_later (a b : I) : exhausted a -> later a b -> exhausted b.
Proof.
  intros Ha Hab c fuel v d Hbc. apply Ha. apply later_trans with (b := b); assumption.
Qed.
End LaterFacts.

(** ** Decorators that answer only what their base answered

    [map] and [filter] share this shape: every answer of the decorator goes
    back to an answer of its base, made during the same call, which is empty
    exactly when the decorator's is; the decorator then holds the base as
    that answer left it. *)

Section Passing.
Context {D B VD VB : Type} `{Iterator D VD} `{Iterator B VB}.
Variable base_of : D -> B.
Hypothesis passes :
  forall fuel d r d',
    next fuel d = Some (r, d') ->
    exists b1 fuel1 r0,
      later (base_of d) b1 /\ next fuel1 b1 = Some (r0, base_of d') /\
      (r = None <-> r0 = None).

Lemma passing_later (d d1 : D) : later d d1 -> later (base_of d) (base_of d1).
Proof.
  induction 1 as [|d1 d2 fuel r _ IH Hn]; [apply later_now|].
  destruct (passes Hn) as [b1 [fuel1 [r0 [Hl [Hb _]]]]].
  apply later_next with (2 := Hb). apply later_trans with (1 := IH) (2 := Hl).
Qed.

Lemma passing_exhausted (d : D) : exhausted (base_of d) -> exhausted d.
Proof.
  intros Hex d1 fuel v d2 Hl Hn.
  destruct (passes Hn) as [b1 [fuel1 [r0 [Hl1 [Hb Hr]]]]].
  destruct r0 as [v0|].
  - apply (Hex b1 fuel1 v0 (base_of d2)); [|exact Hb].
    apply later_trans with (2 := Hl1). apply passing_later, Hl.
  - destruct Hr as [_ Hr]. discriminate (Hr eq_refl).
Qed.

Lemma passing_always_sticky (d : D) :
  always_sticky (base_of d) -> always_sticky d.
Proof.
  intros Hb d1 Hl fuel d' Hn.
  destruct (passes Hn) as [b1 [fuel1 [r0 [Hl1 [Hb1 Hr]]]]].
  destruct Hr as [Hr _]. rewrite (Hr eq_refl) in Hb1.
  apply passing_exhausted.
  assert (Hs : sticky b1).
  { apply Hb. apply later_trans with (2 := Hl1). apply passing_later, Hl. }
  apply (Hs _ _ Hb1).
Qed.
End Passing.

(** ** map and filter pass the base's answers on *)

Section MapPasses.
Context {BaseIterator MapFunc A B : Type}.
Context `{Iterator BaseIterator A} `{Callable MapFunc A B}.

Lemma map_passes (fuel : nat) (d d' : map_iterator.t BaseIterator MapFunc)
    (r : option B) :
  next fuel d = Some (r, d') ->
  exists b1 fuel1 r0,
    later (map_iterator.base_ d) b1 /\
    next fuel1 b1 = Some (r0, map_iterator.base_ d') /\
    (r = None <-> r0 = None).
Proof.
  unfold next at 1, map_iterator_Iterator, map_iterator.next.
  destruct (next fuel (map_iterator.base_ d)) as [[[v|] b]|] eqn:Hb;
    [| |discriminate].
  - destruct (call (map_iterator.map_func_ d) v) as [r' f'].
    intros E. inversion E; subst.
    exists (map_iterator.base_ d), fuel, (Some v).
    split; [apply later_now|]. split; [exact Hb|].
    split; discriminate.
  - intros E. inversion E; subst.
    exists (map_iterator.base_ d), fuel, None.
    split; [apply later_now|]. split; [exact Hb|].
    split; reflexivity.
Qed.
End MapPasses.

Section FilterPasses.
Context {BaseIterator FilterFunc value_type : Type}.
Context `{Iterator BaseIterator value_type} `{Callable FilterFunc value_type bool}.

(** The answer of a call of [next()] on a filter is the answer of the last
    call it made on its base. *)
Lemma filter_last_base_call (fuel : nat) :
  forall (d d' : filter_iterator.t BaseIterator FilterFunc) (r : option value_type),
  next fuel d = Some (r, d') ->
  exists b1 fuel1,
    later (filter_iterator.base_ d) b1 /\
    next fuel1 b1 = Some (r, filter_iterator.base_ d').
Proof.
  induction fuel as [|fuel IH]; intros d d' r; [discriminate|].
  unfold next at 1, filter_iterator_Iterator. simpl.
  destruct (next fuel (filter_iterator.base_ d)) as [[[v|] b]|] eqn:Hb;
    [| |discriminate].
  - destruct (call (filter_iterator.filter_func_ d) v) as [[|] f'].
    + intros E. inversion E; subst.
      exists (filter_iterator.base_ d), fuel. split; [apply later_now|exact Hb].
    + intros E. apply IH in E. destruct E as [b1 [fuel1 [Hl Hn]]].
      exists b1, fuel1. split; [|exact Hn].
      apply later_first with (1 := Hb) (2 := Hl).
  - intros E. inversion E; subst.
    exists (filter_iterator.base_ d), fuel. split; [apply later_now|exact Hb].
Qed.

Lemma filter_passes (fuel : nat) (d d' : filter_iterator.t BaseIterator FilterFunc)
    (r : option value_type) :
  next fuel d = Some (r, d') ->
  exists b1 fuel1 r0,
    later (filter_iterator.base_ d) b1 /\
    next fuel1 b1 = Some (r0, filter_iterator.base_ d') /\
    (r = None <-> r0 = None).
Proof.
  intros Hn. destruct (filter_last_base_call _ _ Hn) as [b1 [fuel1 [Hl Hb]]].
  exists b1, fuel1, r. split; [exact Hl|]. split; [exact Hb|]. split; auto.
Qed.
End FilterPasses.

Section FilterPure.
Context {BaseIterator value_type : Type} `{Iterator BaseIterator value_type}.

Lemma filter_value_passes (p : value_type -> bool) (fuel : nat) :
  forall (b : BaseIterator) (v : value_type)
         (d' : filter_iterator.t BaseIterator (value_type -> bool)),
  next fuel (filter_iterator.mk p b) = Some (Some v, d') ->
  p v = true /\ filter_iterator.filter_func_ d' = p.
Proof.
  induction fuel as [|fuel IH]; intros b v d'; [discriminate|].
  rewrite filter_next_succ.
  destruct (next fuel b) as [[[w|] b']|]; [| |discriminate].
  - destruct (p w) eqn:Hp.
    + intros E. inversion E; subst. split; [exact Hp|reflexivity].
    + apply IH.
  - discriminate.
Qed.

(** X1: whatever [filter(f)] answers, a value or empty, is what the last
    call it made on its base answered, at a state the base reached from
    where it stood, and the filter then holds the base as that call left
    it: a filter makes up no value and reports empty only when its base
    did.  With a predicate [p] that is a plain function, a value it answers
    satisfies [p]. *)
Theorem filter_answers_from_base :
  (forall (FilterFunc : Type) (C : Callable FilterFunc value_type bool)
          (fuel : nat) (d d' : filter_iterator.t BaseIterator FilterFunc)
          (r : option value_type),
     next fuel d = Some (r, d') ->
     exists b1 fuel1,
       later (filter_iterator.base_ d) b1 /\
       next fuel1 b1 = Some (r, filter_iterator.base_ d')) /\
  (forall (p : value_type -> bool) (fuel : nat) (b : BaseIterator)
          (v : value_type) d',
     next fuel (filter_iterator.mk p b) = Some (Some v, d') -> p v = true).
Proof.
  split.
  - intros FilterFunc C fuel d d' r Hn. apply (filter_last_base_call _ _ Hn).
  - intros p fuel b v d' Hn. apply (filter_value_passes p _ _ Hn).
Qed.
End FilterPure.

(** X1 at [filter(even)] over 1, 2, 3: the first answer is 2. *)
Lemma filter_answers_from_base_witness : Nat.even 2 = true.
Proof.
  apply (proj2 (filter_answers_from_base (BaseIterator := replay.t nat))
           Nat.even 2 (of_list [1; 2; 3]) 2
           (filter_iterator.mk Nat.even (of_list [3]))).
  reflexivity.
Defined.

(** ** Sticky termination through map and filter *)

Section RangeSticky.
Context {T FuncNext : Type} `{Callable FuncNext T (T * T)}.

(** A range whose [is_last] is a plain function is sticky all its life. *)
Lemma range_always_sticky (it : range_iterator.t T (T -> bool) FuncNext) :
  always_sticky it.
Proof.
  intros [pos l s] _ fuel it' Hn.
  destruct (l pos) eqn:Hl.
  - rewrite range_next_last in Hn by exact Hl. inversion Hn; subst.
    apply fixed_exhausted. intros fuel'. apply range_next_last, Hl.
  - rewrite range_next_step in Hn by exact Hl.
    destruct (call s pos) as [[v a] n]. discriminate.
Qed.
End RangeSticky.

Section DecoratorsSticky.
Context {BaseIterator MapFunc FilterFunc A B : Type} `{Iterator BaseIterator A}.
Context `{Callable MapFunc A B} `{Callable FilterFunc A bool}.

(** X2: [map] and [filter] add no way out of exhaustion: over a base that
    stays empty once it has reported empty, at every point of its life, a
    [map] and a [filter] (with any function object) stay empty once they
    have reported empty, at every point of theirs. *)
Theorem map_filter_keep_sticky (f : MapFunc) (p : FilterFunc) (b : BaseIterator) :
  always_sticky b ->
  always_sticky (map_iterator.mk f b) /\ always_sticky (filter_iterator.mk p b).
Proof.
  intros Hb. split.
  - apply (passing_always_sticky (D := map_iterator.t BaseIterator MapFunc)
             (@map_iterator.base_ BaseIterator MapFunc)).
    + intros fuel d r d' Hn. apply (map_passes _ _ Hn).
    + exact Hb.
  - apply (passing_always_sticky (D := filter_iterator.t BaseIterator FilterFunc)
             (@filter_iterator.base_ BaseIterator FilterFunc)).
    + intros fuel d r d' Hn. apply (filter_passes _ _ Hn).
    + exact Hb.
Qed.
End DecoratorsSticky.

(** X2 at [range(0, 5).map(f)] and [range(0, 5).filter(even)]. *)
Lemma map_filter_keep_sticky_witness :
  always_sticky (map_iterator.mk (fun v : int => (v * 10)%Z)
                   (iterator_wrapper.iterator_ (range (0%Z : int) 5%Z))) /\
  always_sticky (filter_iterator.mk Z.even
                   (iterator_wrapper.iterator_ (range (0%Z : int) 5%Z))).
Proof.
  apply (map_filter_keep_sticky (fun v : int => (v * 10)%Z) Z.even).
  apply range_always_sticky.
Defined.

(** ** generate *)

Section GenerateFacts.
Context {GenFunc value_type : Type} `{Callable GenFunc unit value_type}.

Lemma generate_next (fuel : nat) (g : GenFunc) :
  next fuel (generate_iterator.mk g) =
  let (r, g') := call g tt in Some (Some r, generate_iterator.mk g').
Proof. reflexivity. Qed.

Lemma generate_never_empty (g : GenFunc) : never_empty (generate_iterator.mk g).
Proof.
  intros [g1] fuel it2 _ Hn. rewrite generate_next in Hn.
  destruct (call g1 tt) as [r g']. discriminate.
Qed.

End GenerateFacts.

Section GenerateCount.
Context {GenFunc value_type : Type} `{Callable GenFunc unit value_type}.

Lemma generate_next_spy (fuel c : nat) (g : GenFunc) :
  next fuel (generate_iterator.mk (spy.mk c g)) =
  let (r, g') := call g tt in
  Some (Some r, generate_iterator.mk (spy.mk (S c) g')).
Proof.
  rewrite generate_next. unfold call at 1, spy_Callable, spy.call. simpl.
  destruct (call g tt) as [r g']. reflexivity.
Qed.

(** X3: a generator never reports empty: [k] calls of [next()] return [k]
    values, and have called the generating function exactly [k] times. *)
Theorem generate_never_exhausts (k fuel c : nat) (g : GenFunc) :
  exists vs g',
    pulls fuel k (generate_iterator.mk (spy.mk c g)) =
    Some (List.map Some vs, generate_iterator.mk (spy.mk (c + k) g')) /\
    length vs = k.
Proof.
  revert c g. induction k as [|k IH]; intros c g.
  - exists [], g. rewrite Nat.add_0_r. split; reflexivity.
  - rewrite pulls_succ, generate_next_spy.
    destruct (call g tt) as [r g1].
    destruct (IH (S c) g1) as [vs [g' [Hp Hlen]]].
    exists (r :: vs), g'. rewrite Hp, Nat.add_succ_r. simpl.
    split; [reflexivity|]. rewrite Hlen. reflexivity.
Qed.
End GenerateCount.

(** ** each *)

Section EachFacts.
Context {I value_type Func R : Type}.
Context `{Iterator I value_type} `{Callable Func value_type R}.

Lemma each_succ (fuel : nat) (it : I) (f : Func) :
  iterator_wrapper.each (S fuel) (iterator_wrapper.mk it) f =
  match next fuel it with
  | None => None
  | Some (Some v, i) =>
      iterator_wrapper.each fuel (iterator_wrapper.mk i) (snd (call f v))
  | Some (None, i) => Some (iterator_wrapper.mk i, f)
  end.
Proof.
  simpl. destruct (next fuel it) as [[[v|] i]|]; try reflexivity.
  destruct (call f v) as [r f']. reflexivity.
Qed.

Lemma never_empty_later (it it1 : I) :
  never_empty it -> later it it1 -> never_empty it1.
Proof.
  intros Hne Hl it2 fuel it3 Hl2. apply Hne.
  apply later_trans with (1 := Hl) (2 := Hl2).
Qed.

(** X4: [each] returns only when its iterator reports empty: on an iterator
    that never does, [each] does not return, whatever the fuel. *)
Theorem each_needs_an_end (it : I) (f : Func) (fuel : nat) :
  never_empty it ->
  iterator_wrapper.each fuel (iterator_wrapper.mk it) f = None.
Proof.
  revert it f. induction fuel as [|fuel IH]; intros it f Hne; [reflexivity|].
  rewrite each_succ.
  destruct (next fuel it) as [[[v|] i]|] eqn:Hn; [| |reflexivity].
  - apply IH. apply never_empty_later with (1 := Hne).
    apply later_next with (1 := later_now it) (2 := Hn).
  - exfalso. apply (Hne it fuel i (later_now it) Hn).
Qed.

(** X5: over an iterator that is the finite sequence [S], [each] returns
    (given enough fuel) and has called the function object on the elements
    of [S], once each and in order. *)
Theorem each_runs_in_order (S : list value_type) (it : I) :
  yields it S ->
  exists fuel0, forall fuel, fuel0 <= fuel ->
  forall f : Func, exists it',
    iterator_wrapper.each fuel (iterator_wrapper.mk it) f =
    Some (iterator_wrapper.mk it', called_on f S).
Proof.
  revert it. induction S as [|v S IH]; intros it HY; simpl in HY.
  - destruct HY as [it' [f0 Hf]]. exists (Datatypes.S f0).
    intros [|fuel] Hle f; [lia|]. exists it'.
    rewrite each_succ, Hf by lia. reflexivity.
  - destruct HY as [it' [[f0 Hf] HY]].
    destruct (IH _ HY) as [f1 Hrec].
    exists (Datatypes.S (Nat.max f0 f1)).
    intros [|fuel] Hle f; [lia|].
    destruct (Hrec fuel ltac:(lia) (snd (call f v))) as [it'' Heach].
    exists it''. rewrite each_succ, Hf by lia. exact Heach.
Qed.

(** When [each] has returned, its iterator's last answer was empty. *)
Lemma each_ends_on_empty (fuel : nat) :
  forall (it : I) (f : Func) (w' : iterator_wrapper.t I) (f' : Func),
  iterator_wrapper.each fuel (iterator_wrapper.mk it) f = Some (w', f') ->
  exists it1 fuel1,
    later it it1 /\ next fuel1 it1 = Some (None, iterator_wrapper.iterator_ w').
Proof.
  induction fuel as [|fuel IH]; intros it f w' f'; [discriminate|].
  rewrite each_succ.
  destruct (next fuel it) as [[[v|] i]|] eqn:Hn; [| |discriminate].
  - intros E. apply IH in E. destruct E as [it1 [fuel1 [Hl Hn1]]].
    exists it1, fuel1. split; [|exact Hn1].
    apply later_first with (1 := Hn) (2 := Hl).
  - intros E. inversion E; subst. exists it, fuel.
    split; [apply later_now|exact Hn].
Qed.

(** X6: sequences are single pass: once [each] has run through an iterator
    that is sticky all its life, a second [each] on the wrapper it left
    calls its function object not once. *)
Theorem each_single_pass (it : I) (f f' g : Func)
    (w' : iterator_wrapper.t I) (fuel fuel' : nat) :
  always_sticky it ->
  iterator_wrapper.each fuel (iterator_wrapper.mk it) f = Some (w', f') ->
  match iterator_wrapper.each fuel' w' g with
  | Some (_, g') => g' = g
  | None => True
  end.
Proof.
  intros Hs E1.
  destruct (each_ends_on_empty _ _ _ E1) as [it1 [fuel1 [Hl Hn]]].
  pose proof (Hs _ Hl _ _ Hn) as Hex.
  destruct w' as [i']. simpl in Hn, Hex.
  destruct fuel' as [|fuel']; [exact Logic.I|].
  rewrite each_succ.
  destruct (next fuel' i') as [[[v|] i]|] eqn:Hn2; [| |exact Logic.I].
  - exfalso. apply (Hex i' fuel' v i (later_now i') Hn2).
  - reflexivity.
Qed.
End EachFacts.

(** X4 at a generator that always returns 1. *)
Lemma each_needs_an_end_witness :
  iterator_wrapper.each 100 (from_generator (fun _ : unit => 1)) (recorder.mk [])
  = None.
Proof.
  apply each_needs_an_end. apply generate_never_empty.
Defined.

(** X5 at the sequence 1, 2, 3 and a function object that counts. *)
Lemma each_runs_in_order_witness :
  exists fuel0, forall fuel, fuel0 <= fuel ->
  forall f : spy.t (nat -> nat), exists it',
    iterator_wrapper.each fuel (iterator_wrapper.mk (of_list [1; 2; 3])) f =
    Some (iterator_wrapper.mk it', called_on f [1; 2; 3]).
Proof.
  apply each_runs_in_order. apply of_list_yields.
Defined.

(** X6 at [range(0, 5)]: a second [each] records nothing. *)
Lemma each_single_pass_witness :
  match iterator_wrapper.each 3 (range (5%Z : int) 5%Z) (recorder.mk []) with
  | Some (_, g') => g' = recorder.mk []
  | None => True
  end.
Proof.
  apply each_single_pass
    with (it := iterator_wrapper.iterator_ (range (0%Z : int) 5%Z))
         (f := recorder.mk []) (f' := recorder.mk [0; 1; 2; 3; 4]%Z) (fuel := 6).
  - apply range_always_sticky.
  - reflexivity.
Defined.

(** ** A generator bounded by take *)

Section GeneratorTake.
Context {value_type : Type}.

(** X7: [from_generator(g).take(n).each(f)] returns, given fuel for its
    [n + 1] calls of [next()]: it has called [g] exactly [n] times and [f]
    on the [n] values, and leaves the count at zero. *)
Theorem generator_take_each (g : unit -> value_type) (n : nat) :
  forall (fuel c : nat) (acc : list value_type),
  n < fuel ->
  iterator_wrapper.each fuel
    (fst (iterator_wrapper.take (from_generator (spy.mk c g)) n))
    (recorder.mk acc) =
  Some (iterator_wrapper.mk
          (take_iterator.mk 0 (generate_iterator.mk (spy.mk (c + n) g))),
        recorder.mk (acc ++ repeat (g tt) n)).
Proof.
  unfold iterator_wrapper.take, from_generator. simpl.
  induction n as [|n IH]; intros [|fuel] c acc Hlt; try lia.
  - rewrite each_succ, take_next_zero, Nat.add_0_r, app_nil_r. reflexivity.
  - rewrite each_succ, take_next_succ, generate_next_spy. simpl.
    rewrite IH by lia. rewrite Nat.add_succ_r, <- app_assoc. reflexivity.
Qed.
End GeneratorTake.

(** X7 at a generator of ones and [take(3)]. *)
Lemma generator_take_each_witness :
  iterator_wrapper.each 4
    (fst (iterator_wrapper.take (from_generator (spy.mk 0 (fun _ : unit => 1))) 3))
    (recorder.mk []) =
  Some (iterator_wrapper.mk
          (take_iterator.mk 0
             (generate_iterator.mk (spy.mk 3 (fun _ : unit => 1)))),
        recorder.mk [1; 1; 1]).
Proof.
  apply (generator_take_each (fun _ : unit => 1) (n := 3) (fuel := 4) 0 []). lia.
Defined.

(** ** How the decorators compose *)

Section MapPulls.
Context {BaseIterator A B : Type} `{Iterator BaseIterator A}.
Variable f : A -> B.

Lemma map_pulls_plain (fuel k : nat) :
  forall b : BaseIterator,
  pulls fuel k (map_iterator.mk f b) =
  match pulls fuel k b with
  | None => None
  | Some (rs, b') => Some (List.map (option_map f) rs, map_iterator.mk f b')
  end.
Proof.
  induction k as [|k IH]; intros b; [reflexivity|].
  rewrite !pulls_succ, map_next_plain.
  destruct (next fuel b) as [[[v|] b']|]; [| |reflexivity];
    rewrite IH; destruct (pulls fuel k b') as [[rs b'']|]; reflexivity.
Qed.

Lemma map_pulls_spy (fuel k : nat) :
  forall (c : nat) (b : BaseIterator),
  pulls fuel k (map_iterator.mk (spy.mk c f) b) =
  match pulls fuel k b with
  | None => None
  | Some (rs, b') =>
      Some (List.map (option_map f) rs,
            map_iterator.mk (spy.mk (c + present rs) f) b')
  end.
Proof.
  induction k as [|k IH]; intros c b.
  - simpl. rewrite Nat.add_0_r. reflexivity.
  - rewrite !pulls_succ, map_next_spy.
    destruct (next fuel b) as [[[v|] b']|]; [| |reflexivity];
      rewrite IH; destruct (pulls fuel k b') as [[rs b'']|]; try reflexivity.
    unfold present. simpl. rewrite Nat.add_succ_r. reflexivity.
Qed.
End MapPulls.

Lemma present_app_empty {value_type : Type} (rs : list (option value_type)) (n : nat) :
  present (rs ++ repeat None n) = present rs.
Proof.
  unfold present. rewrite filter_app, length_app.
  assert (E : List.filter
                (fun r : option value_type =>
                   match r with Some _ => true | None => false end)
                (repeat None n) = []).
  { induction n as [|n IH]; [reflexivity|exact IH]. }
  rewrite E. simpl. apply Nat.add_0_r.
Qed.

Section Compose.
Context {BaseIterator A B C : Type} `{Iterator BaseIterator A}.

(** X8: two maps in a row answer, call for call, what one map with the
    composed function answers, over any base and for any number of calls;
    the base is left the same. *)
Theorem map_map_fusion (f : A -> B) (g : B -> C) (b : BaseIterator)
    (fuel k : nat) :
  pulls fuel k (map_iterator.mk g (map_iterator.mk f b)) =
  match pulls fuel k (map_iterator.mk (fun x => g (f x)) b) with
  | None => None
  | Some (rs, d) =>
      Some (rs, map_iterator.mk g (map_iterator.mk f (map_iterator.base_ d)))
  end.
Proof.
  rewrite (map_pulls_plain g), (map_pulls_plain f),
    (map_pulls_plain (fun x => g (f x))).
  destruct (pulls fuel k b) as [[rs b']|]; [|reflexivity].
  simpl. rewrite map_map.
  rewrite (map_ext (fun x => option_map g (option_map f x))
             (option_map (fun x => g (f x)))); [reflexivity|].
  intros [x|]; reflexivity.
Qed.

(** X9: [take(n)] of [take(m)] answers, call for call, what [take(min n m)]
    answers, over any base. *)
Theorem take_take_min (n m : nat) (b : BaseIterator) (fuel k : nat) :
  option_map fst (pulls fuel k (take_iterator.mk n (take_iterator.mk m b))) =
  option_map fst (pulls fuel k (take_iterator.mk (Nat.min n m) b)).
Proof.
  rewrite !take_pulls. rewrite <- Nat.min_assoc.
  destruct (pulls fuel (Nat.min k (Nat.min n m)) b) as [[rs b']|];
    [|reflexivity].
  simpl. f_equal. rewrite <- app_assoc, <- repeat_app. do 2 f_equal. lia.
Qed.

(** X10: limiting before or after mapping is the same: [map(f).take(n)] and
    [take(n).map(f)] give the same answers call for call, and have called
    [f] the same number of times: once per value among the first
    [min k n] answers of the base. *)
Theorem take_map_commute (f : A -> B) (n c : nat) (b : BaseIterator)
    (fuel k : nat) :
  match pulls fuel (Nat.min k n) b with
  | None =>
      pulls fuel k (take_iterator.mk n (map_iterator.mk (spy.mk c f) b)) = None /\
      pulls fuel k (map_iterator.mk (spy.mk c f) (take_iterator.mk n b)) = None
  | Some (rs, b') =>
      let answers := List.map (option_map f) rs ++ repeat None (k - n) in
      let f' := spy.mk (c + present rs) f in
      pulls fuel k (take_iterator.mk n (map_iterator.mk (spy.mk c f) b)) =
        Some (answers, take_iterator.mk (n - k) (map_iterator.mk f' b')) /\
      pulls fuel k (map_iterator.mk (spy.mk c f) (take_iterator.mk n b)) =
        Some (answers, map_iterator.mk f' (take_iterator.mk (n - k) b'))
  end.
Proof.
  rewrite take_pulls, !map_pulls_spy, take_pulls.
  destruct (pulls fuel (Nat.min k n) b) as [[rs b']|]; [|split; reflexivity].
  simpl. split; [reflexivity|].
  rewrite map_app, present_app_empty. do 3 f_equal.
  induction (k - n) as [|j IH]; [reflexivity|]. simpl. rewrite IH. reflexivity.
Qed.
End Compose.

Section FilterCompose.
Context {BaseIterator value_type : Type} `{Iterator BaseIterator value_type}.

(** X11: over a base that is the finite sequence [S], a filter of a filter
    is the sequence of the elements of [S] that pass both predicates. *)
Theorem filter_filter_both (p q : value_type -> bool) (b : BaseIterator)
    (S : list value_type) :
  yields b S ->
  yields (filter_iterator.mk q (filter_iterator.mk p b))
         (List.filter (fun x => p x && q x) S).
Proof.
  intros HY.
  replace (List.filter (fun x => p x && q x) S)
    with (List.filter q (List.filter p S)).
  - apply filter_yields, filter_yields, HY.
  - clear HY. induction S as [|x S IH]; [reflexivity|].
    simpl. destruct (p x); simpl; [destruct (q x)|]; rewrite IH; reflexivity.
Qed.
End FilterCompose.

(** X11 at the even multiples of three among 1 .. 12. *)
Lemma filter_filter_both_witness :
  yields (filter_iterator.mk (fun x => x mod 3 =? 0)
            (filter_iterator.mk Nat.even (of_list (seq 1 12))))
         [6; 12].
Proof.
  exact (filter_filter_both Nat.even (fun x => x mod 3 =? 0)
           (of_list (seq 1 12)) (seq 1 12) (of_list_yields (seq 1 12))).
Defined.

(** ** range(begin, end) on int *)

Lemma int_wrap_in_range (z : Z) :
  (- 2 ^ 31 <= z < 2 ^ 31)%Z -> int_wrap z = z.
Proof.
  unfold int_wrap. change (2 ^ 31)%Z with 2147483648%Z.
  change (2 ^ 32)%Z with 4294967296%Z. intros Hz.
  Z.div_mod_to_equations. lia.
Qed.

Lemma range_int_step (a e : int) :
  a <> e -> (- 2 ^ 31 <= a)%Z -> (a + 1 < 2 ^ 31)%Z ->
  answers (iterator_wrapper.iterator_ (range a e)) (Some a)
          (iterator_wrapper.iterator_ (range (a + 1)%Z e)).
Proof.
  intros Hne Hlo Hhi. apply answers_always. intros fuel.
  unfold range, range_from. simpl.
  rewrite range_next_step.
  - unfold call, function_Callable, post_increment, int_Incrementable.
    rewrite int_wrap_in_range by lia. reflexivity.
  - unfold eq_op, int_EqualityComparable. apply Z.eqb_neq, Hne.
Qed.

Lemma range_int_delivers (n : nat) :
  forall a e : int,
  (forall i, i < n -> (a + Z.of_nat i)%Z <> e) ->
  (- 2 ^ 31 <= a)%Z -> (a + Z.of_nat n < 2 ^ 31)%Z ->
  delivers (iterator_wrapper.iterator_ (range a e))
           (List.map (fun i => (a + Z.of_nat i)%Z) (seq 0 n))
           (iterator_wrapper.iterator_ (range (a + Z.of_nat n)%Z e)).
Proof.
  induction n as [|n IH]; intros a e Hne Hlo Hhi.
  - simpl. rewrite Z.add_0_r. reflexivity.
  - rewrite <- cons_seq, <- seq_shift, map_cons, map_map.
    exists (iterator_wrapper.iterator_ (range (a + 1)%Z e)). split.
    + rewrite Z.add_0_r. apply range_int_step; [|lia|lia].
      specialize (Hne 0 (Nat.lt_0_succ n)). rewrite Z.add_0_r in Hne. exact Hne.
    + replace (a + Z.of_nat (S n))%Z with (a + 1 + Z.of_nat n)%Z by lia.
      rewrite (map_ext (fun x => (a + Z.of_nat (S x))%Z)
                 (fun i => (a + 1 + Z.of_nat i)%Z)) by (intros; lia).
      apply IH; [|lia|lia].
      intros i Hi. replace (a + 1 + Z.of_nat i)%Z with (a + Z.of_nat (S i))%Z by lia.
      apply Hne. lia.
Qed.

(** X12: [range(a, a + n)] on [int], with [a + n] still an [int], is the
    sequence a, a + 1, ..., a + n - 1 followed by empty; [range(a, a)] is
    the empty sequence. *)
Theorem range_int_interval (a : int) (n : nat) :
  (- 2 ^ 31 <= a)%Z -> (a + Z.of_nat n < 2 ^ 31)%Z ->
  yields (iterator_wrapper.iterator_ (range a (a + Z.of_nat n)%Z))
         (List.map (fun i => (a + Z.of_nat i)%Z) (seq 0 n)).
Proof.
  intros Hlo Hhi. apply yields_delivers.
  exists (iterator_wrapper.iterator_ (range (a + Z.of_nat n)%Z (a + Z.of_nat n)%Z)).
  eexists. split.
  - apply range_int_delivers; [|exact Hlo|exact Hhi]. intros i Hi. lia.
  - apply answers_always. intros fuel. unfold range, range_from. simpl.
    apply range_next_last.
    unfold eq_op, int_EqualityComparable. apply Z.eqb_refl.
Qed.

(** X13: a range whose begin lies past its end is not empty: [range(a, e)]
    with [e < a] answers a, a + 1, a + 2, ... for as long as the position
    is an [int], without ever reporting empty. *)
Theorem range_int_begin_past_end (a e : int) (n : nat) :
  (e < a)%Z -> (- 2 ^ 31 <= a)%Z -> (a + Z.of_nat n < 2 ^ 31)%Z ->
  delivers (iterator_wrapper.iterator_ (range a e))
           (List.map (fun i => (a + Z.of_nat i)%Z) (seq 0 n))
           (iterator_wrapper.iterator_ (range (a + Z.of_nat n)%Z e)).
Proof.
  intros Hlt Hlo Hhi. apply range_int_delivers; [|exact Hlo|exact Hhi].
  intros i Hi. lia.
Qed.

(** X12 at [range(-2, 3)]. *)
Lemma range_int_interval_witness :
  yields (iterator_wrapper.iterator_ (range (-2)%Z 3%Z)) [-2; -1; 0; 1; 2]%Z.
Proof.
  change (yields (iterator_wrapper.iterator_
                    (range (-2)%Z ((-2) + Z.of_nat 5)%Z))
                 (List.map (fun i => ((-2) + Z.of_nat i)%Z) (seq 0 5))).
  apply range_int_interval; [vm_compute; discriminate|reflexivity].
Defined.

(** X13 at [range(5, 0)]: the first three answers are 5, 6, 7. *)
Lemma range_int_begin_past_end_witness :
  delivers (iterator_wrapper.iterator_ (range 5%Z 0%Z)) [5; 6; 7]%Z
           (iterator_wrapper.iterator_ (range 8%Z 0%Z)).
Proof.
  change (delivers (iterator_wrapper.iterator_ (range 5%Z 0%Z))
                   (List.map (fun i => (5 + Z.of_nat i)%Z) (seq 0 3))
                   (iterator_wrapper.iterator_ (range (5 + Z.of_nat 3)%Z 0%Z))).
  apply range_int_begin_past_end;
    [reflexivity|vm_compute; discriminate|reflexivity].
Defined.

(** ** A filter that finds nothing *)

Section FilterLoop.
Context {BaseIterator value_type : Type} `{Iterator BaseIterator value_type}.

(** X14: the loop of [filter_iterator::next] ends only on a value that
    passes or on an empty answer of the base: over a base that never
    reports empty, with a predicate that rejects every value, a call of
    [next()] on the filter does not return, whatever the fuel. *)
Theorem filter_without_match_never_returns (p : value_type -> bool)
    (b : BaseIterator) (fuel : nat) :
  never_empty b -> (forall v, p v = false) ->
  next fuel (filter_iterator.mk p b) = None.
Proof.
  intros Hne Hp. revert b Hne.
  induction fuel as [|fuel IH]; intros b Hne; [reflexivity|].
  rewrite filter_next_succ.
  destruct (next fuel b) as [[[v|] b']|] eqn:Hn; [| |reflexivity].
  - rewrite Hp. apply IH. apply never_empty_later with (1 := Hne).
    apply later_next with (1 := later_now b) (2 := Hn).
  - exfalso. apply (Hne b fuel b' (later_now b) Hn).
Qed.
End FilterLoop.

(** X14 at a generator of ones filtered for a value below zero. *)
Lemma filter_without_match_never_returns_witness :
  next 1000 (filter_iterator.mk (fun v => v <? 0)
               (generate_iterator.mk (fun _ : unit => 1))) = None.
Proof.
  apply filter_without_match_never_returns.
  - apply generate_never_empty.
  - intros v. apply Nat.ltb_ge. lia.
Defined.
